(** * A shallow embedding of the tree manager client

    The repository is a React client for a forest of named, ordered trees:
    - [types/tree.ts]            the data model ([TreeNodeType], [TreeType]);
    - [components/TreeManager.tsx] the tree list, the export view
      ([TreeView] / [renderTree]) and tree creation ([createTree]);
    - [components/TreeNode.tsx]  one node of the tree with its add-child,
      edit-data, rename and delete handlers.

    JavaScript values are embedded as an inductive type, JavaScript strings
    as sequences of UTF-16 code units, IEEE-754 doubles with the executable
    specification of [SpecFloat], component state as records, event
    handlers as functions from a state to a new state and the list of
    effects (requests, reloads) issued. *)

From Stdlib Require Import ZArith NArith List String Ascii Bool Lia.
From Stdlib Require Import SpecFloat.
Import ListNotations.

Local Open Scope string_scope.
Local Open Scope list_scope.

Set Implicit Arguments.
Set Warnings "-register-all".

(** ** JavaScript strings and values *)

Module Js.

(** A JavaScript string is a sequence of 16-bit code units. *)
Definition code_unit := N.
Definition JsString := list code_unit.

(** ASCII literals of the source text. *)
Definition lit (s : string) : JsString :=
  map N_of_ascii (list_ascii_of_string s).

Definition JsString_eqb (a b : JsString) : bool :=
  if list_eq_dec N.eq_dec a b then true else false.

(** WhiteSpace and LineTerminator code points of ECMAScript, the ones
    [String.prototype.trim] strips: TAB, LF, VT, FF, CR, SP, NBSP,
    OGHAM SPACE MARK, U+2000..U+200A, LS, PS, NNBSP, MMSP, IDEOGRAPHIC
    SPACE and ZWNBSP. *)
Definition is_white_space (c : code_unit) : bool :=
  ((9 <=? c) && (c <=? 13) || (c =? 32) || (c =? 160) || (c =? 5760)
   || (8192 <=? c) && (c <=? 8202) || (c =? 8232) || (c =? 8233)
   || (c =? 8239) || (c =? 8287) || (c =? 12288) || (c =? 65279))%N.

Fixpoint trimStart (s : JsString) : JsString :=
  match s with
  | [] => []
  | c :: rest => if is_white_space c then trimStart rest else s
  end.

Definition trimEnd (s : JsString) : JsString :=
  rev (trimStart (rev s)).

(** [s.trim()] *)
Definition trim (s : JsString) : JsString := trimEnd (trimStart s).

(** Truthiness of a string: [!s] is true exactly for the empty string. *)
Definition truthy_string (s : JsString) : bool :=
  match s with [] => false | _ :: _ => true end.

(** The values that the client builds and serialises: [null], strings,
    numbers (only integers occur), arrays and plain objects with their
    own properties in insertion order. *)
Inductive JsValue : Type :=
| JNull
| JStr (s : JsString)
| JNum (z : Z)
| JArr (elems : list JsValue)
| JObj (props : list (string * JsValue)).

(** [string | null] of the type declarations. *)
Definition of_nullable (d : option JsString) : JsValue :=
  match d with
  | None => JNull
  | Some s => JStr s
  end.

(** [a ?? b] on a nullable string. *)
Definition nullish (a : option JsString) (b : JsString) : JsString :=
  match a with
  | None => b
  | Some s => s
  end.

Fixpoint get_prop (k : string) (props : list (string * JsValue))
  : option JsValue :=
  match props with
  | [] => None
  | (k', v) :: rest => if String.eqb k k' then Some v else get_prop k rest
  end.

Definition has_key (k : string) (props : list (string * JsValue)) : bool :=
  match get_prop k props with Some _ => true | None => false end.

Definition keys (props : list (string * JsValue)) : list string :=
  map fst props.

(** Defining a property: an existing key keeps its place and takes the
    new value, a new key is appended. *)
Fixpoint set_prop (k : string) (v : JsValue) (props : list (string * JsValue))
  : list (string * JsValue) :=
  match props with
  | [] => [(k, v)]
  | (k', v') :: rest =>
      if String.eqb k k' then (k', v) :: rest
      else (k', v') :: set_prop k v rest
  end.

(** [{ ...base, ...ext }]: the properties of [ext] are copied, in order,
    onto the object under construction. *)
Definition spread (base ext : list (string * JsValue))
  : list (string * JsValue) :=
  fold_left (fun acc kv => set_prop (fst kv) (snd kv) acc) ext base.

(** Outcome of evaluating code that may throw. *)
Inductive Exn : Type :=
| TypeError (msg : string)
| URIError (msg : string).

Inductive Completion (A : Type) : Type :=
| Return (a : A)
| Throw (e : Exn).

Arguments Return {A} a.
Arguments Throw {A} e.

Definition bind {A B} (c : Completion A) (k : A -> Completion B)
  : Completion B :=
  match c with
  | Return a => k a
  | Throw e => Throw e
  end.

Fixpoint mapM {A B} (f : A -> Completion B) (l : list A)
  : Completion (list B) :=
  match l with
  | [] => Return []
  | a :: rest =>
      bind (f a) (fun b => bind (mapM f rest) (fun bs => Return (b :: bs)))
  end.

(** Surrogate code units: U+D800..U+DBFF lead, U+DC00..U+DFFF trail. *)
Definition is_high_surrogate (c : code_unit) : bool :=
  ((55296 <=? c) && (c <=? 56319))%N.

Definition is_low_surrogate (c : code_unit) : bool :=
  ((56320 <=? c) && (c <=? 57343))%N.

(** [s.isWellFormed()]: no lone surrogate. *)
Fixpoint well_formed (s : JsString) : bool :=
  match s with
  | [] => true
  | c :: rest =>
      if is_high_surrogate c then
        match rest with
        | d :: rest' => is_low_surrogate d && well_formed rest'
        | [] => false
        end
      else if is_low_surrogate c then false
      else well_formed rest
  end.

(** The characters that [encodeURIComponent] leaves as they are: letters,
    digits and [- _ . ! ~ * ' ( )]. *)
Definition uri_unreserved (c : code_unit) : bool :=
  ((65 <=? c) && (c <=? 90) || (97 <=? c) && (c <=? 122)
   || (48 <=? c) && (c <=? 57)
   || (c =? 45) || (c =? 95) || (c =? 46) || (c =? 33) || (c =? 126)
   || (c =? 42) || (c =? 39) || (c =? 40) || (c =? 41))%N.

Definition hex_digit (n : N) : code_unit :=
  (if n <? 10 then 48 + n else 55 + n)%N.

(** ["%XX"] for one octet. *)
Definition percent (octet : N) : JsString :=
  [37%N; hex_digit (octet / 16); hex_digit (octet mod 16)].

(** The UTF-8 octets of a code point. *)
Definition utf8 (cp : N) : list N :=
  (if cp <? 128 then [cp]
   else if cp <? 2048 then [192 + cp / 64; 128 + cp mod 64]
   else if cp <? 65536 then
     [224 + cp / 4096; 128 + (cp / 64) mod 64; 128 + cp mod 64]
   else
     [240 + cp / 262144; 128 + (cp / 4096) mod 64;
      128 + (cp / 64) mod 64; 128 + cp mod 64])%N.

(** [encodeURIComponent(s)]: unreserved characters are kept, every other
    code point is replaced by the escapes of its UTF-8 octets, and a lone
    surrogate throws a URIError. *)
Fixpoint encodeURIComponent (s : JsString) : Completion JsString :=
  match s with
  | [] => Return []
  | c :: rest =>
      if uri_unreserved c then
        bind (encodeURIComponent rest) (fun r => Return (c :: r))
      else if is_high_surrogate c then
        match rest with
        | d :: rest' =>
            if is_low_surrogate d then
              bind (encodeURIComponent rest') (fun r =>
                Return (flat_map percent
                          (utf8 (65536 + (c - 55296) * 1024 + (d - 56320))%N)
                        ++ r))
            else Throw (URIError "URI malformed")
        | [] => Throw (URIError "URI malformed")
        end
      else if is_low_surrogate c then Throw (URIError "URI malformed")
      else
        bind (encodeURIComponent rest) (fun r =>
          Return (flat_map percent (utf8 c) ++ r))
  end.

End Js.

Import Js.

(** ** types/tree.ts *)

Module Tree.

Inductive TreeNodeType : Type :=
  mkNode {
    id : Z;
    tree_id : Z;
    path : JsString;
    name : JsString;
    data : option JsString;
    children : list TreeNodeType
  }.

(** [tree_id] of a tree is spelled [tree_tree_id]: the field of the same
    name of a node holds the name [tree_id]. *)
Record TreeType : Type :=
  mkTree {
    tree_tree_id : Z;
    root : option TreeNodeType
  }.

End Tree.

Import Tree.

(** ** components/TreeManager.tsx: the export view *)

(** [renderTree]:
<<
    const renderTree = (node) => {
      return {
        name: node.name,
        ...(node.children && node.children.length > 0
          ? { children: node.children.map((child) => renderTree(child)) }
          : { data: node.data }),
      };
    };
>>
    on a node of type [TreeNodeType] (where [children] is always an array,
    hence truthy). *)
Fixpoint renderTree (node : TreeNodeType) : JsValue :=
  match node with
  | mkNode _ _ _ nm d ch =>
      JObj (spread [("name", JStr nm)]
              (if (0 <? List.length ch)%nat
               then [("children", JArr (map renderTree ch))]
               else [("data", of_nullable d)]))
  end.

(** The call [renderTree(tree.root)] of [TreeView]: [tree.root] has type
    [TreeNodeType | null], and reading [node.name] of [null] throws. *)
Definition renderTree_call (node : option TreeNodeType) : Completion JsValue :=
  match node with
  | None => Throw (TypeError "Cannot read properties of null (reading 'name')")
  | Some n => Return (renderTree n)
  end.

(** ** Requests to the API and effects of a handler *)

Module Api.

(** The four mutating endpoints and the listing, as the client calls them:
    - [CreateRoot t q]: [POST ${API}/trees/${t}/root?name=${q}], where
      [q] is the root name as [encodeURIComponent] returned it;
    - [AddNode t body]: [POST ${API}/trees/${t}/nodes] with the JSON [body];
    - [PatchNode i body]: [PATCH ${API}/nodes/${i}] with the JSON [body];
    - [DeleteNode t p]: [DELETE ${API}/nodes/${t}/${p}];
    - [ListTrees]: [GET ${API}/trees].
    A body is the value handed to [JSON.stringify]; the tree id of
    [CreateRoot] is the Number (a double) that [createTree] computed. *)
Inductive Request : Type :=
| CreateRoot (treeId : spec_float) (encodedName : JsString)
| AddNode (treeId : Z) (body : JsValue)
| PatchNode (nodeId : Z) (body : JsValue)
| DeleteNode (treeId : Z) (nodePath : JsString)
| ListTrees.

(** What a handler does besides setting state: it sends a request, or it
    calls the [reload] callback of its props. *)
Inductive Effect : Type :=
| Fetch (r : Request)
| Reload.

End Api.

Import Api.

(** ** IEEE-754 doubles: the Numbers of [createTree] *)

Module Number.

Definition prec : Z := 53.
Definition emax : Z := 1024.

(** The literal [2000000000], which is [8388608000000000 * 2^-22]. *)
Definition two_billion : spec_float :=
  S754_finite false 8388608000000000 (-22).

(** [x * y] on doubles, rounding to nearest, ties to even. *)
Definition mul (x y : spec_float) : spec_float := SFmul prec emax x y.

(** [Math.floor(x)]: NaN, the infinities, the zeros and the finite doubles
    with a nonnegative exponent are integral already; otherwise the
    mantissa is shifted right (which rounds towards minus infinity) and
    the integer obtained is converted back to a double. *)
Definition floor (x : spec_float) : spec_float :=
  match x with
  | S754_finite s m e =>
      if (0 <=? e)%Z then x
      else binary_normalize prec emax
             (Z.shiftr (cond_Zopp s (Zpos m)) (- e)) 0 false
  | _ => x
  end.

(** The integer that a double denotes, when it denotes one. *)
Definition to_integer (x : spec_float) : option Z :=
  match x with
  | S754_zero _ => Some 0%Z
  | S754_finite s m e =>
      if (0 <=? e)%Z then Some (cond_Zopp s (Zpos m) * 2 ^ e)%Z
      else if (Zpos m mod 2 ^ (- e) =? 0)%Z
           then Some (cond_Zopp s (Zpos m) / 2 ^ (- e))%Z
           else None
  | _ => None
  end.

(** A result of [Math.random()]: a double with positive sign, greater
    than or equal to zero and less than one. *)
Definition is_random (r : spec_float) : bool :=
  match r with
  | S754_zero false => true
  | S754_finite false m e =>
      bounded prec emax m e && (e <? 0)%Z && (Zpos m <? 2 ^ (- e))%Z
  | _ => false
  end.

End Number.

(** ** components/TreeManager.tsx *)

Module TreeManager.

Record State : Type :=
  mkState {
    trees : list TreeType;
    loading : bool;
    isUpdating : bool;
    showCreateDialog : bool;
    newTreeName : JsString
  }.

(** [useState] initial values. *)
Definition init : State :=
  {| trees := []; loading := true; isUpdating := false;
     showCreateDialog := false; newTreeName := [] |}.

Definition setTrees (v : list TreeType) (st : State) : State :=
  {| trees := v; loading := loading st; isUpdating := isUpdating st;
     showCreateDialog := showCreateDialog st; newTreeName := newTreeName st |}.

Definition setLoading (v : bool) (st : State) : State :=
  {| trees := trees st; loading := v; isUpdating := isUpdating st;
     showCreateDialog := showCreateDialog st; newTreeName := newTreeName st |}.

Definition setIsUpdating (v : bool) (st : State) : State :=
  {| trees := trees st; loading := loading st; isUpdating := v;
     showCreateDialog := showCreateDialog st; newTreeName := newTreeName st |}.

Definition setShowCreateDialog (v : bool) (st : State) : State :=
  {| trees := trees st; loading := loading st; isUpdating := isUpdating st;
     showCreateDialog := v; newTreeName := newTreeName st |}.

Definition setNewTreeName (v : JsString) (st : State) : State :=
  {| trees := trees st; loading := loading st; isUpdating := isUpdating st;
     showCreateDialog := showCreateDialog st; newTreeName := v |}.

(** [loadTrees] up to its [await]: [setLoading(true)] and the request. *)
Definition loadTrees_begin (st : State) : State * list Effect :=
  (setLoading true st, [Fetch ListTrees]).

(** [loadTrees] after the [await]: the parsed response replaces [trees]
    ([None]: the request or the parse failed and the [catch] only logs),
    then [setLoading(false)] and [setIsUpdating(false)]. *)
Definition loadTrees_end (json : option (list TreeType)) (st : State) : State :=
  let st1 := match json with
             | Some ts => setTrees ts st
             | None => st
             end in
  setIsUpdating false (setLoading false st1).

(** The [reload] callback handed to every [TreeNode]. *)
Definition reload (st : State) : State * list Effect :=
  loadTrees_begin (setIsUpdating true st).

(** [createTree], given the double [rnd] that [Math.random()] returns and
    whether the [fetch] promise fulfils ([net]):
<<
  if (!newTreeName.trim()) return;
  try {
    const treeId = Math.floor(Math.random() * 2000000000);
    await fetch(`${API}/trees/${treeId}/root?name=${encodeURIComponent(newTreeName)}`,
                { method: "POST" });
    setShowCreateDialog(false);
    setNewTreeName("");
    loadTrees();
  } catch (error) { console.error(...) }
>>
    The URL is built before [fetch] is called: when [encodeURIComponent]
    throws, nothing is sent and the [catch] only logs, as it does when the
    request is rejected. *)
Definition createTree (rnd : spec_float) (net : bool) (st : State)
  : State * list Effect :=
  if negb (truthy_string (trim (newTreeName st))) then (st, [])
  else
    let treeId := Number.floor (Number.mul rnd Number.two_billion) in
    match encodeURIComponent (newTreeName st) with
    | Throw _ => (st, [])
    | Return q =>
        let req := Fetch (CreateRoot treeId q) in
        if net then
          let '(st', effs) :=
            loadTrees_begin (setNewTreeName [] (setShowCreateDialog false st)) in
          (st', req :: effs)
        else (st, [req])
    end.

(** [TreeView]: the value whose [JSON.stringify(_, null, 2)] text is shown
    under "Export Value". *)
Definition TreeView (tree : TreeType) : Completion JsValue :=
  renderTree_call (root tree).

(** One card of the tree list: the [TreeNode] mounted for the root when
    [tree.root] is truthy, and the export value. *)
Record TreeCard : Type :=
  mkCard {
    card_tree_id : Z;
    card_node : option TreeNodeType;
    card_export : JsValue
  }.

Definition render_card (tree : TreeType) : Completion TreeCard :=
  bind (TreeView tree) (fun v =>
    Return {| card_tree_id := tree_tree_id tree;
              card_node := root tree;
              card_export := v |}).

Inductive View : Type :=
| LoadingView
| TreesView (cards : list TreeCard) (createDialogOpen : bool).

(** The component body: the loading placeholder while [loading] or
    [isUpdating], otherwise one card per listed tree. *)
Definition render (st : State) : Completion View :=
  if loading st || isUpdating st then Return LoadingView
  else bind (mapM render_card (trees st)) (fun cards =>
         Return (TreesView cards (showCreateDialog st))).

End TreeManager.

(** ** components/TreeNode.tsx *)

Module TreeNode.

Record State : Type :=
  mkState {
    open : bool;
    editing : bool;
    name : JsString;
    showDeleteDialog : bool;
    showAddDialog : bool;
    showEditDialog : bool;
    childName : JsString;
    childDataValue : JsString;
    dataValue : JsString
  }.

(** [useState] initial values for a component mounted on [node]. *)
Definition init (node : TreeNodeType) : State :=
  {| open := true; editing := false; name := Tree.name node;
     showDeleteDialog := false; showAddDialog := false;
     showEditDialog := false; childName := []; childDataValue := [];
     dataValue := nullish (data node) [] |}.

Definition setOpen (v : bool) (st : State) : State :=
  mkState v (editing st) (name st) (showDeleteDialog st) (showAddDialog st)
    (showEditDialog st) (childName st) (childDataValue st) (dataValue st).

Definition setEditing (v : bool) (st : State) : State :=
  mkState (open st) v (name st) (showDeleteDialog st) (showAddDialog st)
    (showEditDialog st) (childName st) (childDataValue st) (dataValue st).

Definition setName (v : JsString) (st : State) : State :=
  mkState (open st) (editing st) v (showDeleteDialog st) (showAddDialog st)
    (showEditDialog st) (childName st) (childDataValue st) (dataValue st).

Definition setShowDeleteDialog (v : bool) (st : State) : State :=
  mkState (open st) (editing st) (name st) v (showAddDialog st)
    (showEditDialog st) (childName st) (childDataValue st) (dataValue st).

Definition setShowAddDialog (v : bool) (st : State) : State :=
  mkState (open st) (editing st) (name st) (showDeleteDialog st) v
    (showEditDialog st) (childName st) (childDataValue st) (dataValue st).

Definition setShowEditDialog (v : bool) (st : State) : State :=
  mkState (open st) (editing st) (name st) (showDeleteDialog st)
    (showAddDialog st) v (childName st) (childDataValue st) (dataValue st).

Definition setChildName (v : JsString) (st : State) : State :=
  mkState (open st) (editing st) (name st) (showDeleteDialog st)
    (showAddDialog st) (showEditDialog st) v (childDataValue st) (dataValue st).

Definition setchildDataValue (v : JsString) (st : State) : State :=
  mkState (open st) (editing st) (name st) (showDeleteDialog st)
    (showAddDialog st) (showEditDialog st) (childName st) v (dataValue st).

Definition setDataValue (v : JsString) (st : State) : State :=
  mkState (open st) (editing st) (name st) (showDeleteDialog st)
    (showAddDialog st) (showEditDialog st) (childName st) (childDataValue st) v.

Section Handlers.

(** The props of the component; [net] tells whether the [fetch] promise
    of a handler fulfils (none of these handlers catches a rejection,
    so nothing after the [await] runs when it does not). *)
Variable node : TreeNodeType.
Variable treeId : Z.

(** [handleAddChild] *)
Definition handleAddChild (net : bool) (st : State) : State * list Effect :=
  if negb (truthy_string (trim (childName st))) then (st, [])
  else
    let req :=
      Fetch (AddNode treeId
               (JObj [("parent_id", JNum (id node));
                      ("name", JStr (childName st));
                      ("data", JStr (childDataValue st))])) in
    if net then (setChildName [] (setShowAddDialog false st), [req; Reload])
    else (st, [req]).

(** [handleUpdateData] *)
Definition handleUpdateData (net : bool) (st : State) : State * list Effect :=
  let req :=
    Fetch (PatchNode (id node) (JObj [("data", JStr (dataValue st))])) in
  if net then (setShowEditDialog false st, [req; Reload])
  else (st, [req]).

(** [handleDeleteNode] *)
Definition handleDeleteNode (net : bool) (st : State) : State * list Effect :=
  let req := Fetch (DeleteNode treeId (path node)) in
  if net then (setShowDeleteDialog false st, [req; Reload])
  else (st, [req]).

(** [handleNameUpdate] *)
Definition handleNameUpdate (net : bool) (st : State) : State * list Effect :=
  if negb (truthy_string (trim (name st))) then
    (setEditing false (setName (Tree.name node) st), [])
  else if negb (JsString_eqb (name st) (Tree.name node)) then
    let req :=
      Fetch (PatchNode (id node) (JObj [("name", JStr (name st))])) in
    if net then (setEditing false st, [req; Reload])
    else (st, [req])
  else (setEditing false st, []).

(** What the header shows for the name: the input bound to the [name]
    state while editing, the label [node.name] otherwise. *)
Inductive NameView : Type :=
| NameInput (value : JsString)
| NameLabel (text : JsString).

Definition name_view (st : State) : NameView :=
  if editing st then NameInput (name st) else NameLabel (Tree.name node).

(** Whether the "Edit Data" button is rendered:
    [node.children.length === 0 && (<Button ...>)]. *)
Definition edit_data_offered : bool :=
  (List.length (children node) =? 0)%nat.

(** The events of the rendered component. The dialogs of [ui/dialog]
    and [ui/alert-dialog] are controlled by their [open] prop and have
    no trigger element, so their [onOpenChange] callback is only called
    with [false], when an open dialog is dismissed. *)
Inductive Event : Type :=
| ToggleOpen
| NameDoubleClick
| NameChange (value : JsString)
| NameBlur (net : bool)
| NameKeyDown (key : JsString) (net : bool)
| AddChildClick
| EditDataClick
| DeleteClick
| AddDialogDismiss
| ChildNameChange (value : JsString)
| ChildDataChange (value : JsString)
| AddSubmit (net : bool)
| AddCancel
| EditDialogDismiss
| DataChange (value : JsString)
| EditSubmit (net : bool)
| EditCancel
| DeleteDialogDismiss
| DeleteConfirm (net : bool)
| DeleteCancel.

(** An event can only come from an element that is rendered: the name
    input exists while [editing], the label otherwise; the "Edit Data"
    button exists for a node without children; the content of a dialog
    exists while the dialog is open. *)
Definition enabled (st : State) (ev : Event) : bool :=
  match ev with
  | ToggleOpen | AddChildClick | DeleteClick => true
  | NameDoubleClick => negb (editing st)
  | NameChange _ | NameBlur _ | NameKeyDown _ _ => editing st
  | EditDataClick => edit_data_offered
  | AddDialogDismiss | ChildNameChange _ | ChildDataChange _
  | AddSubmit _ | AddCancel => showAddDialog st
  | EditDialogDismiss | DataChange _ | EditSubmit _ | EditCancel =>
      showEditDialog st
  | DeleteDialogDismiss | DeleteConfirm _ | DeleteCancel =>
      showDeleteDialog st
  end.

(** The handler attached to each event. *)
Definition handle (st : State) (ev : Event) : State * list Effect :=
  match ev with
  | ToggleOpen => (setOpen (negb (open st)) st, [])
  | NameDoubleClick => (setEditing true st, [])
  | NameChange v => (setName v st, [])
  | NameBlur net => handleNameUpdate net st
  | NameKeyDown key net =>
      if JsString_eqb key (lit "Enter") then handleNameUpdate net st
      else if JsString_eqb key (lit "Escape") then
        (setEditing false (setName (Tree.name node) st), [])
      else (st, [])
  | AddChildClick => (setShowAddDialog true st, [])
  | EditDataClick =>
      (setShowEditDialog true (setDataValue (nullish (data node) []) st), [])
  | DeleteClick => (setShowDeleteDialog true st, [])
  | AddDialogDismiss | AddCancel => (setShowAddDialog false st, [])
  | ChildNameChange v => (setChildName v st, [])
  | ChildDataChange v => (setchildDataValue v st, [])
  | AddSubmit net => handleAddChild net st
  | EditDialogDismiss | EditCancel => (setShowEditDialog false st, [])
  | DataChange v => (setDataValue v st, [])
  | EditSubmit net => handleUpdateData net st
  | DeleteDialogDismiss | DeleteCancel => (setShowDeleteDialog false st, [])
  | DeleteConfirm net => handleDeleteNode net (setShowDeleteDialog false st)
  end.

(** One step of the mounted component: an event that no rendered element
    can raise changes nothing. *)
Definition step (st : State) (ev : Event) : State * list Effect :=
  if enabled st ev then handle st ev else (st, []).

(** A session on one mounted component: the events in order, with every
    effect issued along the way. *)
Fixpoint run (st : State) (evs : list Event) : State * list Effect :=
  match evs with
  | [] => (st, [])
  | ev :: rest =>
      let '(st1, effs1) := step st ev in
      let '(st2, effs2) := run st1 rest in
      (st2, effs1 ++ effs2)
  end.

End Handlers.

End TreeNode.

(** ** Reading an exported value back *)

(** The two shapes of an exported value, at every depth: a name with a
    [data] entry, or a name with a non-empty [children] array of exported
    values. *)
Inductive ExportValue : JsValue -> Prop :=
| Export_data (nm : JsString) (d : option JsString) :
    ExportValue (JObj [("name", JStr nm); ("data", of_nullable d)])
| Export_children (nm : JsString) (vs : list JsValue) :
    vs <> [] ->
    Forall ExportValue vs ->
    ExportValue (JObj [("name", JStr nm); ("children", JArr vs)]).

Definition value_props (v : JsValue) : list (string * JsValue) :=
  match v with
  | JObj props => props
  | _ => []
  end.

(** [v.name], [v.data] and [v.children] of a value read back; a value
    without a [children] array has no child. *)
Definition value_name (v : JsValue) : option JsValue :=
  get_prop "name" (value_props v).

Definition value_data (v : JsValue) : option JsValue :=
  get_prop "data" (value_props v).

Definition value_children (v : JsValue) : list JsValue :=
  match get_prop "children" (value_props v) with
  | Some (JArr vs) => vs
  | _ => []
  end.

(** The node, respectively the value, found by following child indices
    from the top. *)
Fixpoint subnode (p : list nat) (n : TreeNodeType) : option TreeNodeType :=
  match p with
  | [] => Some n
  | i :: rest =>
      match nth_error (children n) i with
      | Some c => subnode rest c
      | None => None
      end
  end.

Fixpoint subvalue (p : list nat) (v : JsValue) : option JsValue :=
  match p with
  | [] => Some v
  | i :: rest =>
      match nth_error (value_children v) i with
      | Some c => subvalue rest c
      | None => None
      end
  end.

(** Structural induction on trees, with the hypothesis on every child. *)
Section TreeInduction.

Variable P : TreeNodeType -> Prop.
Hypothesis Hnode :
  forall i t p nm d ch, Forall P ch -> P (mkNode i t p nm d ch).

Fixpoint TreeNodeType_forall_ind (n : TreeNodeType) : P n :=
  match n with
  | mkNode i t p nm d ch =>
      Hnode i t p nm d
        ((fix all (l : list TreeNodeType) : Forall P l :=
            match l with
            | [] => Forall_nil P
            | c :: cs => Forall_cons c (TreeNodeType_forall_ind c) (all cs)
            end) ch)
  end.

End TreeInduction.

(** ** Sample data *)

(** The tree of the scenario [createTree("root")], [addChild(root, "a", "")],
    [addChild(root, "b", "")]. *)
Definition node_a : TreeNodeType :=
  mkNode 2 1 (lit "1.2") (lit "a") (Some (lit "")) [].

Definition node_b : TreeNodeType :=
  mkNode 3 1 (lit "1.3") (lit "b") (Some (lit "")) [].

Definition scenario_root : TreeNodeType :=
  mkNode 1 1 (lit "1") (lit "root") None [node_a; node_b].

(** A childless node that holds no data. *)
Definition empty_leaf : TreeNodeType :=
  mkNode 4 1 (lit "4") (lit "leaf") None [].

(** A listed tree whose root was deleted. *)
Definition rootless_tree : TreeType := mkTree 7 None.

(** The manager once the listing [[rootless_tree]] has been loaded. *)
Definition rootless_listing : TreeManager.State :=
  TreeManager.loadTrees_end (Some [rootless_tree]) TreeManager.init.

(** The root of the scenario while its name is edited to blanks. *)
Definition renaming_to_blank : TreeNode.State :=
  TreeNode.setName (lit "  ")
    (TreeNode.setEditing true (TreeNode.init scenario_root)).


(** A session that opens the data editor and saves what it shows. *)
Definition edit_session : list TreeNode.Event :=
  [TreeNode.EditDataClick; TreeNode.EditSubmit true].

(** The double 0.5, a possible result of [Math.random()]. *)
Definition one_half : spec_float := S754_finite false 4503599627370496 (-53).

(** The manager with "root" typed in the create dialog. *)
Definition naming_root : TreeManager.State :=
  TreeManager.setNewTreeName (lit "root")
    (TreeManager.setShowCreateDialog true
       (TreeManager.loadTrees_end (Some []) TreeManager.init)).

(** * Properties of the export transformation *)

Lemma renderTree_leaf (node : TreeNodeType) :
  children node = [] ->
  renderTree node =
    JObj [("name", JStr (Tree.name node)); ("data", of_nullable (data node))].
Proof.
  destruct node as [i t p nm d ch]; simpl; intros ->; reflexivity.
Qed.

Lemma renderTree_internal (node : TreeNodeType) :
  children node <> [] ->
  renderTree node =
    JObj [("name", JStr (Tree.name node));
          ("children", JArr (map renderTree (children node)))].
Proof.
  destruct node as [i t p nm d ch]; simpl; intros Hne.
  destruct ch as [|c cs]; [congruence | reflexivity].
Qed.

Lemma renderTree_ExportValue (node : TreeNodeType) :
  ExportValue (renderTree node).
Proof.
  induction node as [i t p nm d ch IH] using TreeNodeType_forall_ind.
  destruct ch as [|c cs].
  - rewrite renderTree_leaf by reflexivity. apply Export_data.
  - rewrite renderTree_internal by (simpl; congruence).
    apply Export_children; [simpl; congruence|].
    simpl children. apply Forall_map. exact IH.
Qed.

Lemma value_children_renderTree (node : TreeNodeType) :
  value_children (renderTree node) = map renderTree (children node).
Proof.
  destruct (children node) as [|c cs] eqn:E.
  - rewrite renderTree_leaf by assumption. reflexivity.
  - rewrite renderTree_internal by congruence. rewrite E. reflexivity.
Qed.

Lemma value_name_renderTree (node : TreeNodeType) :
  value_name (renderTree node) = Some (JStr (Tree.name node)).
Proof.
  destruct (children node) as [|c cs] eqn:E.
  - rewrite renderTree_leaf by assumption. reflexivity.
  - rewrite renderTree_internal by congruence. reflexivity.
Qed.

(** C1: [renderTree] returns [{ name, children }] with the children
    rendered in order when the node has one or more children, and
    [{ name, data }] with the stored data, [null] included, when it has
    none; the keys of the result are exactly [name, children] or
    [name, data], never both [children] and [data], and this holds at
    every depth of the exported value. *)
Theorem renderTree_two_shapes (node : TreeNodeType) :
  (children node <> [] ->
   renderTree node =
     JObj [("name", JStr (Tree.name node));
           ("children", JArr (map renderTree (children node)))])
  /\ (children node = [] ->
      renderTree node =
        JObj [("name", JStr (Tree.name node));
              ("data", of_nullable (data node))])
  /\ (keys (value_props (renderTree node)) = ["name"; "children"]
      \/ keys (value_props (renderTree node)) = ["name"; "data"])
  /\ has_key "children" (value_props (renderTree node))
       && has_key "data" (value_props (renderTree node)) = false
  /\ ExportValue (renderTree node).
Proof.
  split; [apply renderTree_internal|].
  split; [apply renderTree_leaf|].
  split; [|split; [|apply renderTree_ExportValue]].
  - destruct (children node) as [|c cs] eqn:E.
    + right. rewrite renderTree_leaf by assumption. reflexivity.
    + left. rewrite renderTree_internal by congruence. reflexivity.
  - destruct (children node) as [|c cs] eqn:E.
    + rewrite renderTree_leaf by assumption. reflexivity.
    + rewrite renderTree_internal by congruence. reflexivity.
Qed.

(** C2: reading the rendered tree back position by position finds, where
    the tree has a node, a value with that node's name, with the stored
    data when the node is a leaf, and with one child value per stored
    child in the stored order; where the tree has no node the rendered
    value has none either. *)
Theorem renderTree_round_trip (T : TreeNodeType) (p : list nat) :
  match subnode p T with
  | Some m =>
      exists v,
        subvalue p (renderTree T) = Some v
        /\ v = renderTree m
        /\ value_name v = Some (JStr (Tree.name m))
        /\ (children m = [] ->
            value_data v = Some (of_nullable (data m))
            /\ value_children v = [])
        /\ List.length (value_children v) = List.length (children m)
        /\ map value_name (value_children v)
           = map (fun c => Some (JStr (Tree.name c))) (children m)
  | None => subvalue p (renderTree T) = None
  end.
Proof.
  revert T. induction p as [|i rest IH]; intros T.
  - simpl. exists (renderTree T).
    split; [reflexivity|]. split; [reflexivity|].
    split; [apply value_name_renderTree|].
    split.
    + intros Hleaf. rewrite renderTree_leaf by assumption.
      split; reflexivity.
    + rewrite value_children_renderTree. split.
      * apply length_map.
      * rewrite map_map. apply map_ext. intros c.
        apply value_name_renderTree.
  - simpl. rewrite value_children_renderTree, nth_error_map.
    destruct (nth_error (children T) i) as [c|]; simpl.
    + apply IH.
    + reflexivity.
Qed.

(** Order of the children: the i-th rendered child is the rendering of the i-th
    stored child, and there are no others. *)
Lemma renderTree_child_order (node : TreeNodeType) (i : nat) :
  nth_error (value_children (renderTree node)) i
  = option_map renderTree (nth_error (children node) i).
Proof.
  rewrite value_children_renderTree. apply nth_error_map.
Qed.

(** The rendered children are the renderings of the stored children, index
    by index. *)
Theorem renderTree_deterministic_ordered (n1 n2 : TreeNodeType) :
  (n1 = n2 -> renderTree n1 = renderTree n2)
  /\ List.length (value_children (renderTree n1)) = List.length (children n1)
  /\ (forall i, nth_error (value_children (renderTree n1)) i
                = option_map renderTree (nth_error (children n1) i))
  /\ map value_name (value_children (renderTree n1))
     = map (fun c => Some (JStr (Tree.name c))) (children n1).
Proof.
  split; [intros ->; reflexivity|].
  split; [rewrite value_children_renderTree; apply length_map|].
  split; [intros i; apply renderTree_child_order|].
  rewrite value_children_renderTree, map_map.
  apply map_ext. intros c. apply value_name_renderTree.
Qed.

Lemma renderTree_two_shapes_witness :
  children empty_leaf = []
  /\ renderTree empty_leaf = JObj [("name", JStr (lit "leaf")); ("data", JNull)].
Proof.
  split; [reflexivity|].
  exact (proj1 (proj2 (renderTree_two_shapes empty_leaf)) eq_refl).
Defined.

Lemma renderTree_round_trip_witness :
  subnode [1%nat] scenario_root = Some node_b
  /\ exists v,
       subvalue [1%nat] (renderTree scenario_root) = Some v
       /\ v = renderTree node_b
       /\ value_name v = Some (JStr (lit "b"))
       /\ (children node_b = [] ->
           value_data v = Some (JStr (lit "")) /\ value_children v = [])
       /\ List.length (value_children v) = 0%nat
       /\ map value_name (value_children v) = [].
Proof.
  split; [reflexivity|].
  exact (renderTree_round_trip scenario_root [1%nat]).
Defined.

(** C5: the tree with root "root", no data and the two children "a" and
    "b", each a leaf with data "", whatever its identifiers and paths are,
    exports as
    [{name:"root", children:[{name:"a", data:""},{name:"b", data:""}]}]. *)
Theorem renderTree_scenario
  (i t ia ta ib tb : Z) (p pa pb : JsString) :
  renderTree
    (mkNode i t p (lit "root") None
       [mkNode ia ta pa (lit "a") (Some (lit "")) [];
        mkNode ib tb pb (lit "b") (Some (lit "")) []])
  = JObj [("name", JStr (lit "root"));
          ("children",
           JArr [JObj [("name", JStr (lit "a")); ("data", JStr (lit ""))];
                 JObj [("name", JStr (lit "b")); ("data", JStr (lit ""))]])].
Proof. reflexivity. Qed.

(** * The export view of a listed tree *)

Lemma mapM_throws {A B} (f : A -> Completion B) (l : list A) (a : A) (e : Exn) :
  In a l -> f a = Throw e -> exists e', mapM f l = Throw e'.
Proof.
  induction l as [|x xs IH]; simpl; [tauto|].
  intros [-> | Hin] Hf.
  - rewrite Hf. simpl. eauto.
  - destruct (f x) as [b|e0]; simpl; [|eauto].
    destruct (IH Hin Hf) as [e' ->]. simpl. eauto.
Qed.

(** Whenever the loaded listing contains a tree without a root, rendering
    the list throws: [TreeView] is rendered for every tree and calls
    [renderTree(tree.root)] without the [tree.root &&] guard that the
    [TreeNode] next to it has. *)
Lemma render_throws_on_rootless (st : TreeManager.State) (tree : TreeType) :
  TreeManager.loading st = false ->
  TreeManager.isUpdating st = false ->
  In tree (TreeManager.trees st) ->
  root tree = None ->
  exists e, TreeManager.render st = Throw e.
Proof.
  intros Hl Hu Hin Hroot. unfold TreeManager.render. rewrite Hl, Hu. simpl.
  destruct (@mapM_throws _ _ TreeManager.render_card (TreeManager.trees st) tree
              (TypeError "Cannot read properties of null (reading 'name')")
              Hin) as [e' He'].
  - unfold TreeManager.render_card, TreeManager.TreeView. rewrite Hroot.
    reflexivity.
  - rewrite He'. simpl. eauto.
Qed.

(** C3: on the listing that holds one tree with [root = null], the export
    view faults: [renderTree(null)] throws a TypeError and the rendering of
    the whole tree list fails with it, although the card itself leaves the
    [TreeNode] out for such a tree. *)
Theorem render_rootless_listing_throws :
  TreeManager.TreeView rootless_tree
  = Throw (TypeError "Cannot read properties of null (reading 'name')")
  /\ TreeManager.render rootless_listing
     = Throw (TypeError "Cannot read properties of null (reading 'name')").
Proof. split; reflexivity. Qed.

(** * Name guards of the mutations *)

Lemma blank_not_truthy (s : JsString) :
  trim s = [] <-> negb (truthy_string (trim s)) = true.
Proof.
  destruct (trim s); simpl; split; intros H; congruence.
Qed.

Lemma JsString_eqb_eq (a b : JsString) :
  JsString_eqb a b = true <-> a = b.
Proof.
  unfold JsString_eqb.
  destruct (list_eq_dec N.eq_dec a b); split; congruence.
Qed.

(** C6: with a name that is empty after trimming, [createTree] returns
    before it computes an id or sends anything, and [handleAddChild]
    returns before it sends anything: no request, no reload, and the state
    is left as it was (also as a step of the mounted node, whatever the
    child data typed). *)
Theorem blank_name_no_mutation (s : JsString) :
  trim s = [] ->
  (forall rnd net st,
      TreeManager.newTreeName st = s ->
      TreeManager.createTree rnd net st = (st, []))
  /\ (forall node treeId net st,
         TreeNode.childName st = s ->
         TreeNode.handleAddChild node treeId net st = (st, [])
         /\ TreeNode.step node treeId st (TreeNode.AddSubmit net) = (st, [])).
Proof.
  intros Hblank. apply blank_not_truthy in Hblank. split.
  - intros rnd net st <-. unfold TreeManager.createTree.
    rewrite Hblank. reflexivity.
  - intros node treeId net st <-.
    assert (H : TreeNode.handleAddChild node treeId net st = (st, [])).
    { unfold TreeNode.handleAddChild. rewrite Hblank. reflexivity. }
    split; [exact H|].
    unfold TreeNode.step. simpl.
    destruct (TreeNode.showAddDialog st); [exact H | reflexivity].
Qed.

Lemma blank_name_no_mutation_witness :
  trim (lit "   ") = []
  /\ (forall rnd net st,
         TreeManager.newTreeName st = lit "   " ->
         TreeManager.createTree rnd net st = (st, []))
  /\ (forall node treeId net st,
         TreeNode.childName st = lit "   " ->
         TreeNode.handleAddChild node treeId net st = (st, [])
         /\ TreeNode.step node treeId st (TreeNode.AddSubmit net) = (st, [])).
Proof.
  split; [reflexivity|].
  apply (blank_name_no_mutation (lit "   ")). reflexivity.
Defined.

(** C7: [handleNameUpdate] with a name that is empty after trimming sends
    nothing, resets the [name] state to [node.name] and leaves edit mode, so
    the label shows the stored name; with the stored name it sends nothing;
    and it sends a request exactly when the name is non-empty after
    trimming and differs from the stored one, a PATCH of this node whose
    body has the single key [name]. *)
Theorem handleNameUpdate_guards
  (node : TreeNodeType) (net : bool) (st : TreeNode.State) :
  (trim (TreeNode.name st) = [] ->
   TreeNode.handleNameUpdate node net st
   = (TreeNode.setEditing false (TreeNode.setName (Tree.name node) st), [])
   /\ TreeNode.name_view node (fst (TreeNode.handleNameUpdate node net st))
      = TreeNode.NameLabel (Tree.name node)
   /\ TreeNode.name (fst (TreeNode.handleNameUpdate node net st))
      = Tree.name node)
  /\ (TreeNode.name st = Tree.name node ->
      snd (TreeNode.handleNameUpdate node net st) = [])
  /\ (forall r,
         In (Fetch r) (snd (TreeNode.handleNameUpdate node net st)) ->
         trim (TreeNode.name st) <> []
         /\ TreeNode.name st <> Tree.name node
         /\ r = PatchNode (id node)
                  (JObj [("name", JStr (TreeNode.name st))]))
  /\ (trim (TreeNode.name st) <> [] ->
      TreeNode.name st <> Tree.name node ->
      In (Fetch (PatchNode (id node)
                   (JObj [("name", JStr (TreeNode.name st))])))
         (snd (TreeNode.handleNameUpdate node net st))).
Proof.
  unfold TreeNode.handleNameUpdate.
  destruct (negb (truthy_string (trim (TreeNode.name st)))) eqn:Hblank.
  - apply blank_not_truthy in Hblank.
    split; [intros _; repeat split|].
    split; [reflexivity|].
    split; [intros r []|]. intros Hne. congruence.
  - assert (Hnb : trim (TreeNode.name st) <> []).
    { intros H. apply blank_not_truthy in H. congruence. }
    split; [intros H; congruence|].
    destruct (JsString_eqb (TreeNode.name st) (Tree.name node)) eqn:Heq; simpl.
    + apply JsString_eqb_eq in Heq.
      split; [reflexivity|]. split; [intros r []|]. intros _ H. congruence.
    + assert (Hdiff : TreeNode.name st <> Tree.name node).
      { intros H. apply JsString_eqb_eq in H. congruence. }
      split; [intros H; congruence|].
      split.
      * intros r Hin.
        assert (Hr : Fetch (PatchNode (id node)
                              (JObj [("name", JStr (TreeNode.name st))]))
                     = Fetch r).
        { destruct net; simpl in Hin;
            destruct Hin as [H | Hin]; try exact H;
            try (destruct Hin as [H | []]; discriminate H);
            destruct Hin. }
        injection Hr as <-. auto.
      * intros _ _. destruct net; simpl; auto.
Qed.

Lemma handleNameUpdate_guards_witness :
  trim (TreeNode.name renaming_to_blank) = []
  /\ TreeNode.handleNameUpdate scenario_root true renaming_to_blank
     = (TreeNode.init scenario_root, []).
Proof.
  split; [reflexivity|].
  exact (proj1 (proj1 (handleNameUpdate_guards scenario_root true
                         renaming_to_blank) eq_refl)).
Defined.

(** * Sessions on a mounted node *)

Section Sessions.

Variable node : TreeNodeType.
Variable treeId : Z.

(** The invariant rule for sessions: a state property kept by every step,
    and an effect property established by every step from a state that
    has it, hold along every session. *)
Lemma run_invariant (P : TreeNode.State -> Prop) (Q : Effect -> Prop) :
  (forall st ev,
      P st ->
      P (fst (TreeNode.step node treeId st ev))
      /\ Forall Q (snd (TreeNode.step node treeId st ev))) ->
  forall evs st,
    P st ->
    P (fst (TreeNode.run node treeId st evs))
    /\ Forall Q (snd (TreeNode.run node treeId st evs)).
Proof.
  intros Hstep. induction evs as [|ev rest IH]; intros st HP; simpl.
  - split; [assumption | constructor].
  - destruct (Hstep st ev HP) as [HP1 HQ1].
    destruct (TreeNode.step node treeId st ev) as [st1 effs1]. simpl in *.
    destruct (IH st1 HP1) as [HP2 HQ2].
    destruct (TreeNode.run node treeId st1 rest) as [st2 effs2]. simpl in *.
    split; [assumption|]. apply Forall_app. split; assumption.
Qed.

(** The requests of one step that PATCH a node: the data editor saving
    its field, from a state where the editor is open, or a rename. *)
Definition patch_of_state (st : TreeNode.State) (e : Effect) : Prop :=
  match e with
  | Fetch (PatchNode i body) =>
      i = id node
      /\ ((TreeNode.showEditDialog st = true
           /\ body = JObj [("data", JStr (TreeNode.dataValue st))])
          \/ body = JObj [("name", JStr (TreeNode.name st))])
  | _ => True
  end.

Lemma step_patch (st : TreeNode.State) (ev : TreeNode.Event) :
  Forall (patch_of_state st) (snd (TreeNode.step node treeId st ev)).
Proof.
  unfold TreeNode.step.
  destruct (TreeNode.enabled node st ev) eqn:Hen; [|constructor].
  destruct ev; simpl in *; try (constructor; fail);
    unfold TreeNode.handleNameUpdate, TreeNode.handleAddChild,
      TreeNode.handleUpdateData, TreeNode.handleDeleteNode;
    repeat match goal with
      | |- context [if ?b then _ else _] => destruct b
      end;
    simpl; repeat (apply Forall_cons || apply Forall_nil); simpl; auto;
    (split; [reflexivity|]);
    ((left; split; [assumption | reflexivity]) || (right; reflexivity)).
Qed.

(** The data editor is open only on a node without children. *)
Definition editor_on_leaf (st : TreeNode.State) : Prop :=
  TreeNode.showEditDialog st = true -> children node = [].

Lemma edit_data_offered_iff :
  TreeNode.edit_data_offered node = true <-> children node = [].
Proof.
  unfold TreeNode.edit_data_offered.
  destruct (children node); simpl; split; congruence.
Qed.

Lemma step_editor_on_leaf (st : TreeNode.State) (ev : TreeNode.Event) :
  editor_on_leaf st ->
  editor_on_leaf (fst (TreeNode.step node treeId st ev)).
Proof.
  unfold editor_on_leaf, TreeNode.step. intros Hinv.
  destruct (TreeNode.enabled node st ev) eqn:Hen; [|exact Hinv].
  destruct ev; simpl in *;
    try exact Hinv;
    try (intros _; apply edit_data_offered_iff; exact Hen);
    unfold TreeNode.handleNameUpdate, TreeNode.handleAddChild,
      TreeNode.handleUpdateData, TreeNode.handleDeleteNode;
    repeat match goal with
      | |- context [if ?b then _ else _] => destruct b
      end;
    simpl; auto; try discriminate.
Qed.

(** A PATCH that carries a [data] key comes from a node without children;
    its [data] is a string. *)
Definition data_patch_ok (e : Effect) : Prop :=
  match e with
  | Fetch (PatchNode i body) =>
      i = id node
      /\ (has_key "data" (value_props body) = true -> children node = [])
      /\ (forall v, value_data body = Some v -> exists s, v = JStr s)
  | _ => True
  end.

Lemma session_data_patches (evs : list TreeNode.Event) :
  Forall data_patch_ok
    (snd (TreeNode.run node treeId (TreeNode.init node) evs)).
Proof.
  apply (@run_invariant editor_on_leaf data_patch_ok);
    [|unfold editor_on_leaf; simpl; discriminate].
  intros st ev Hinv. split; [apply step_editor_on_leaf; exact Hinv|].
  eapply Forall_impl; [|apply step_patch].
  intros [[t n | t b | i body | t p |] |]; simpl; auto.
  intros [Hi [[Hopen ->] | ->]]; (split; [exact Hi|]); split; simpl.
  - intros _. apply Hinv, Hopen.
  - intros v [= <-]. eauto.
  - discriminate.
  - discriminate.
Qed.

End Sessions.



(** C10: the data editor is filled with [node.data ?? ""], a string; every
    PATCH of a session that carries a [data] key carries a string there,
    never [null]; on a childless node the editor saved as it opens sends
    the stored string, and the empty string when the stored data is
    [null]. *)
Theorem data_patch_is_string (node : TreeNodeType) (treeId : Z) :
  TreeNode.dataValue (TreeNode.init node) = nullish (data node) []
  /\ (forall evs nodeId body,
         In (Fetch (PatchNode nodeId body))
            (snd (TreeNode.run node treeId (TreeNode.init node) evs)) ->
         value_data body <> Some JNull
         /\ forall v, value_data body = Some v -> exists s, v = JStr s)
  /\ (children node = [] ->
      In (Fetch (PatchNode (id node)
                   (JObj [("data", JStr (nullish (data node) []))])))
         (snd (TreeNode.run node treeId (TreeNode.init node) edit_session)))
  /\ (children node = [] ->
      data node = None ->
      In (Fetch (PatchNode (id node) (JObj [("data", JStr (lit ""))])))
         (snd (TreeNode.run node treeId (TreeNode.init node) edit_session))).
Proof.
  split; [reflexivity|].
  assert (Hsend : children node = [] ->
                  In (Fetch (PatchNode (id node)
                               (JObj [("data", JStr (nullish (data node) []))])))
                     (snd (TreeNode.run node treeId (TreeNode.init node)
                             edit_session))).
  { intros Hleaf. unfold edit_session. simpl. unfold TreeNode.step. simpl.
    replace (TreeNode.edit_data_offered node) with true
      by (symmetry; apply edit_data_offered_iff; exact Hleaf).
    simpl. left. reflexivity. }
  split; [|split; [exact Hsend|]].
  - intros evs nodeId body Hin.
    pose proof (session_data_patches node treeId evs) as Hall.
    rewrite Forall_forall in Hall. specialize (Hall _ Hin). simpl in Hall.
    destruct Hall as [_ [_ Hstr]].
    split; [|exact Hstr].
    intros Hnull. destruct (Hstr _ Hnull) as [s Hs]. discriminate Hs.
  - intros Hleaf Hnone. specialize (Hsend Hleaf).
    rewrite Hnone in Hsend. exact Hsend.
Qed.

Lemma data_patch_is_string_witness :
  children empty_leaf = []
  /\ data empty_leaf = None
  /\ In (Fetch (PatchNode 4 (JObj [("data", JStr (lit ""))])))
        (snd (TreeNode.run empty_leaf 1 (TreeNode.init empty_leaf)
                edit_session)).
Proof.
  split; [reflexivity|]. split; [reflexivity|].
  exact (proj2 (proj2 (proj2 (data_patch_is_string empty_leaf 1)))
           eq_refl eq_refl).
Defined.

(** * The tree id that [createTree] computes *)

Section DoubleArithmetic.

Local Open Scope Z_scope.

Lemma digits2_pos_bounds (p : positive) :
  2 ^ (Zpos (digits2_pos p) - 1) <= Zpos p < 2 ^ Zpos (digits2_pos p).
Proof.
  induction p as [p IH | p IH |]; simpl digits2_pos.
  - rewrite Pos2Z.inj_succ.
    replace (Z.succ (Zpos (digits2_pos p)) - 1)
      with (Z.succ (Zpos (digits2_pos p) - 1)) by lia.
    rewrite !Z.pow_succ_r by lia. lia.
  - rewrite Pos2Z.inj_succ.
    replace (Z.succ (Zpos (digits2_pos p)) - 1)
      with (Z.succ (Zpos (digits2_pos p) - 1)) by lia.
    rewrite !Z.pow_succ_r by lia. lia.
  - simpl. lia.
Qed.

(** One right shift keeps the mantissa below the number shifted, and a
    round bit that comes out set stands for at least half a unit. *)
Lemma shr_1_trunc (mrs : shr_record) (w X : Z) :
  0 < w ->
  0 <= shr_m mrs ->
  shr_m mrs * w <= X ->
  0 <= shr_m (shr_1 mrs)
  /\ shr_m (shr_1 mrs) * (w * 2) <= X
  /\ (shr_r (shr_1 mrs) = true ->
      (2 * shr_m (shr_1 mrs) + 1) * (w * 2) <= 2 * X).
Proof.
  destruct mrs as [m r s]. simpl shr_m at 1 2.
  intros Hw Hm HX.
  destruct m as [|[p|p|]|p]; cbn [shr_1 shr_m shr_r orb];
    try rewrite (Pos2Z.inj_xI p) in HX; try rewrite (Pos2Z.inj_xO p) in HX;
    (split; [lia | split; [nia | try discriminate; intros _; nia]]).
Qed.

Lemma iter_pos_shr_1 (p : positive) :
  forall (mrs : shr_record) (w X : Z),
    0 < w ->
    0 <= shr_m mrs ->
    shr_m mrs * w <= X ->
    0 <= shr_m (iter_pos shr_1 p mrs)
    /\ shr_m (iter_pos shr_1 p mrs) * (w * 2 ^ Zpos p) <= X
    /\ (shr_r (iter_pos shr_1 p mrs) = true ->
        (2 * shr_m (iter_pos shr_1 p mrs) + 1) * (w * 2 ^ Zpos p) <= 2 * X).
Proof.
  induction p as [p IH | p IH |]; intros mrs w X Hw Hm HX; simpl iter_pos.
  - destruct (@shr_1_trunc mrs w X Hw Hm HX) as [H0 [H1 _]].
    destruct (IH (shr_1 mrs) (w * 2) X ltac:(lia) H0 H1) as [H2 [H3 _]].
    assert (Hpow : 0 < 2 ^ Zpos p) by (apply Z.pow_pos_nonneg; lia).
    destruct (IH (iter_pos shr_1 p (shr_1 mrs)) (w * 2 * 2 ^ Zpos p) X
                ltac:(nia) H2 H3) as [H4 [H5 H6]].
    replace (w * 2 ^ Zpos p~1) with (w * 2 * 2 ^ Zpos p * 2 ^ Zpos p).
    + auto.
    + rewrite (Pos2Z.inj_xI p).
      replace (2 * Zpos p + 1) with (Z.succ (Zpos p + Zpos p)) by lia.
      rewrite Z.pow_succ_r, Z.pow_add_r by lia. ring.
  - destruct (IH mrs w X Hw Hm HX) as [H2 [H3 _]].
    assert (Hpow : 0 < 2 ^ Zpos p) by (apply Z.pow_pos_nonneg; lia).
    destruct (IH (iter_pos shr_1 p mrs) (w * 2 ^ Zpos p) X
                ltac:(nia) H2 H3) as [H4 [H5 H6]].
    replace (w * 2 ^ Zpos p~0) with (w * 2 ^ Zpos p * 2 ^ Zpos p).
    + auto.
    + rewrite (Pos2Z.inj_xO p).
      replace (2 * Zpos p) with (Zpos p + Zpos p) by lia.
      rewrite Z.pow_add_r by lia. ring.
  - replace (w * 2 ^ 1) with (w * 2) by (simpl; lia).
    apply shr_1_trunc; assumption.
Qed.

(** [shr] from an exact record: the exponent grows by the (positive)
    shift, the mantissa is truncated, and rounding the result to nearest
    adds at most half a unit of the new last place. *)
Lemma shr_bounds (m e n : Z) (mrs : shr_record) (e' : Z) :
  0 <= m ->
  shr (Build_shr_record m false false) e n = (mrs, e') ->
  e' = e + Z.max 0 n
  /\ 0 <= shr_m mrs
  /\ shr_m mrs * 2 ^ Z.max 0 n <= m
  /\ 0 <= round_nearest_even (shr_m mrs) (loc_of_shr_record mrs)
  /\ 2 * round_nearest_even (shr_m mrs) (loc_of_shr_record mrs)
       * 2 ^ Z.max 0 n
     <= 2 * m + 2 ^ Z.max 0 n.
Proof.
  intros Hm Hshr. unfold shr in Hshr.
  destruct n as [|p|p].
  - injection Hshr as <- <-. simpl. repeat split; lia.
  - injection Hshr as <- <-.
    destruct (@iter_pos_shr_1 p (Build_shr_record m false false) 1 m
                ltac:(lia) Hm ltac:(simpl; lia)) as [H0 [H1 H2]].
    rewrite Z.mul_1_l in H1, H2.
    replace (Z.max 0 (Zpos p)) with (Zpos p) by lia.
    assert (Hpow : 0 < 2 ^ Zpos p) by (apply Z.pow_pos_nonneg; lia).
    split; [reflexivity|]. split; [exact H0|]. split; [exact H1|].
    destruct (iter_pos shr_1 p (Build_shr_record m false false))
      as [m' r' s'].
    cbn [shr_m shr_r loc_of_shr_record] in *.
    destruct r', s'; cbn [round_nearest_even];
      try destruct (Z.even m'); try specialize (H2 eq_refl);
      split; nia.
  - injection Hshr as <- <-. simpl. repeat split; lia.
Qed.

Lemma shr_exact (mrs : shr_record) (e n : Z) :
  n <= 0 -> shr mrs e n = (mrs, e).
Proof.
  destruct n as [|p|p]; intros Hn; try reflexivity. lia.
Qed.


(** The double nearest to [mx * 2^ex]: it is never NaN, it keeps the
    positive sign, and it exceeds the number rounded by at most half a
    unit of the last place kept. *)
Lemma binary_round_aux_bound (mx : positive) (ex : Z) :
  let k :=
    Z.max 0 (fexp Number.prec Number.emax (Zdigits2 (Zpos mx) + ex) - ex) in
  match binary_round_aux Number.prec Number.emax false (Zpos mx) ex loc_Exact
  with
  | S754_zero s => s = false
  | S754_finite s m2 e2 =>
      s = false
      /\ ex <= e2 <= Number.emax - Number.prec
      /\ 2 * (Zpos m2 * 2 ^ (e2 - ex)) <= 2 * Zpos mx + 2 ^ k
  | S754_infinity s =>
      exists m2 e2,
        Number.emax - Number.prec < e2
        /\ ex <= e2
        /\ 2 * (Zpos m2 * 2 ^ (e2 - ex)) <= 2 * Zpos mx + 2 ^ k
  | S754_nan => False
  end.
Proof.
  intros k. unfold binary_round_aux, shr_fexp.
  cbn [shr_record_of_loc]. fold k.
  destruct (shr (Build_shr_record (Zpos mx) false false) ex
              (fexp Number.prec Number.emax (Zdigits2 (Zpos mx) + ex) - ex))
    as [mrs1 e1] eqn:H1.
  apply shr_bounds in H1; [|lia]. fold k in H1.
  destruct H1 as [He1 [_ [_ [Hm1 Hrnd]]]].
  set (m1 := round_nearest_even (shr_m mrs1) (loc_of_shr_record mrs1)) in *.
  destruct (shr (Build_shr_record m1 false false) e1
              (fexp Number.prec Number.emax (Zdigits2 m1 + e1) - e1))
    as [mrs2 e2] eqn:H2.
  apply shr_bounds in H2; [|exact Hm1].
  set (k2 := Z.max 0 (fexp Number.prec Number.emax (Zdigits2 m1 + e1) - e1))
    in *.
  destruct H2 as [He2 [Hm2 [Htr _]]].
  assert (Hk : 0 <= k) by (unfold k; lia).
  assert (Hk2 : 0 <= k2) by (unfold k2; lia).
  assert (Hpk : 0 < 2 ^ k) by (apply Z.pow_pos_nonneg; lia).
  assert (Hpk2 : 0 < 2 ^ k2) by (apply Z.pow_pos_nonneg; lia).
  assert (Hval : forall m2, shr_m mrs2 = Zpos m2 ->
                   ex <= e2
                   /\ 2 * (Zpos m2 * 2 ^ (e2 - ex)) <= 2 * Zpos mx + 2 ^ k).
  { intros m2 Hm. split; [lia|].
    replace (e2 - ex) with (k2 + k) by lia.
    rewrite Z.pow_add_r by lia. rewrite Hm in Htr. nia. }
  destruct (shr_m mrs2) as [|m2|m2] eqn:Hm.
  - reflexivity.
  - destruct (Hval m2 eq_refl) as [Hle Hb].
    destruct (e2 <=? Number.emax - Number.prec) eqn:Hov.
    + apply Z.leb_le in Hov. repeat split; assumption.
    + apply Z.leb_gt in Hov. exists m2, e2. repeat split; assumption.
  - lia.
Qed.


Lemma bounded_mantissa (m : positive) (e : Z) :
  bounded Number.prec Number.emax m e = true ->
  Zpos m < 2 ^ 53 /\ -1074 <= e.
Proof.
  unfold bounded, canonical_mantissa, fexp, emin, Number.prec, Number.emax.
  intros H. apply andb_true_iff in H. destruct H as [Hc _].
  apply Z.eqb_eq in Hc.
  destruct (digits2_pos_bounds m) as [_ Hlt].
  assert (Hd : Zpos (digits2_pos m) <= 53) by lia.
  split; [|lia].
  eapply Z.lt_le_trans; [exact Hlt|].
  apply Z.pow_le_mono_r; lia.
Qed.

(** A double in [0, 1) times 2000000000: the product is a double of
    positive sign that is less than 2000000000. *)
Lemma mul_two_billion_bound (m : positive) (e : Z) :
  bounded Number.prec Number.emax m e = true ->
  e < 0 ->
  Zpos m < 2 ^ (- e) ->
  match Number.mul (S754_finite false m e) Number.two_billion with
  | S754_zero s => s = false
  | S754_finite s m2 e2 =>
      s = false
      /\ e - 22 <= e2
      /\ Zpos m2 * 2 ^ (e2 - (e - 22)) < 2000000000 * 2 ^ (22 - e)
  | _ => False
  end.
Proof.
  intros Hb He Hlt.
  destruct (@bounded_mantissa m e Hb) as [Hm53 Hemin].
  unfold Number.mul, SFmul, Number.two_billion. cbn [xorb].
  pose proof (binary_round_aux_bound (m * 8388608000000000) (e + -22))
    as Hround.
  cbv zeta in Hround.
  set (k := Z.max 0 (fexp Number.prec Number.emax
                       (Zdigits2 (Zpos (m * 8388608000000000)) + (e + -22))
                     - (e + -22))) in Hround.
  assert (Hk : 0 <= k <= 53).
  { unfold k, fexp, emin, Number.prec, Number.emax. cbn [Zdigits2].
    destruct (digits2_pos_bounds (m * 8388608000000000)) as [Hlo _].
    rewrite Pos2Z.inj_mul in Hlo.
    assert (Hd : Zpos (digits2_pos (m * 8388608000000000)) - 1 < 106).
    { apply (Z.pow_lt_mono_r_iff 2); [lia | lia |].
      eapply Z.le_lt_trans; [exact Hlo|].
      change (2 ^ 106) with (2 ^ 53 * 2 ^ 53).
      apply Z.mul_lt_mono_nonneg; [lia | exact Hm53 | lia |].
      reflexivity. }
    lia. }
  assert (Hpk : 2 ^ k <= 9007199254740992).
  { change 9007199254740992 with (2 ^ 53). apply Z.pow_le_mono_r; lia. }
  assert (HP : 0 < 2 ^ (- e)) by (apply Z.pow_pos_nonneg; lia).
  assert (HQ : 2 ^ (22 - e) = 4194304 * 2 ^ (- e)).
  { replace (22 - e) with (22 + - e) by lia.
    rewrite Z.pow_add_r by lia. reflexivity. }
  assert (Hvalue : forall m2 e2,
             2 * (Zpos m2 * 2 ^ (e2 - (e + -22)))
             <= 2 * Zpos (m * 8388608000000000) + 2 ^ k ->
             Zpos m2 * 2 ^ (e2 - (e - 22)) < 2000000000 * 2 ^ (22 - e)).
  { intros m2 e2 H. rewrite Pos2Z.inj_mul in H.
    replace (e2 - (e - 22)) with (e2 - (e + -22)) by lia.
    rewrite HQ. lia. }
  destruct (binary_round_aux Number.prec Number.emax false
              (Zpos (m * 8388608000000000)) (e + -22) loc_Exact)
    as [s | s | | s m2 e2].
  - exact Hround.
  - destruct Hround as [m2 [e2 [Hov [Hle Hval]]]].
    apply Hvalue in Hval. unfold Number.emax, Number.prec in Hov.
    assert (Hbig : 2 ^ (53 - e) <= 2 ^ (e2 - (e - 22)))
      by (apply Z.pow_le_mono_r; lia).
    assert (H53 : 2 ^ (53 - e) = 9007199254740992 * 2 ^ (- e)).
    { replace (53 - e) with (53 + - e) by lia.
      rewrite Z.pow_add_r by lia. reflexivity. }
    rewrite HQ in Hval. nia.
  - exact Hround.
  - destruct Hround as [Hs [[Hle _] Hval]].
    split; [exact Hs|]. split; [lia|]. apply Hvalue. exact Hval.
Qed.


(** Rounding a mantissa that already has its place changes nothing. *)
Lemma binary_round_aux_exact (s : bool) (mz : positive) (ez : Z) :
  fexp Number.prec Number.emax (Zdigits2 (Zpos mz) + ez) - ez <= 0 ->
  ez <= Number.emax - Number.prec ->
  binary_round_aux Number.prec Number.emax s (Zpos mz) ez loc_Exact
  = S754_finite s mz ez.
Proof.
  intros Hshift Hmax. unfold binary_round_aux, shr_fexp.
  cbn [shr_record_of_loc]. rewrite (@shr_exact _ _ _ Hshift).
  cbn [shr_m loc_of_shr_record round_nearest_even].
  rewrite (@shr_exact _ _ _ Hshift). cbn [shr_m].
  apply Z.leb_le in Hmax. rewrite Hmax. reflexivity.
Qed.

Lemma iter_xO (p s : positive) :
  Zpos (Pos.iter xO p s) = Zpos p * 2 ^ Zpos s
  /\ Zpos (digits2_pos (Pos.iter xO p s)) = Zpos (digits2_pos p) + Zpos s.
Proof.
  induction s as [|s [IHv IHd]] using Pos.peano_ind.
  - cbn [Pos.iter digits2_pos]. rewrite Pos2Z.inj_succ.
    rewrite (Pos2Z.inj_xO p). change (2 ^ 1) with 2. lia.
  - rewrite Pos.iter_succ. cbn [digits2_pos].
    rewrite !Pos2Z.inj_succ, (Pos2Z.inj_xO (Pos.iter xO p s)), IHv, IHd.
    rewrite Z.pow_succ_r by lia. lia.
Qed.

(** An integer below 2^53 converts to a double that denotes it. *)
Lemma normalize_integer (n : Z) :
  0 <= n < 2 ^ 53 ->
  Number.to_integer (binary_normalize Number.prec Number.emax n 0 false)
  = Some n.
Proof.
  intros [Hlo Hhi]. destruct n as [|p|p]; [reflexivity | | lia].
  cbn [binary_normalize]. unfold binary_round.
  destruct (digits2_pos_bounds p) as [Hdlo _].
  assert (Hd : Zpos (digits2_pos p) <= 53).
  { assert (Zpos (digits2_pos p) - 1 < 53); [|lia].
    apply (Z.pow_lt_mono_r_iff 2); lia. }
  assert (Hfexp : fexp Number.prec Number.emax (Zpos (digits2_pos p) + 0)
                  = Zpos (digits2_pos p) - 53).
  { unfold fexp, emin, Number.prec, Number.emax. lia. }
  rewrite Hfexp. unfold shl_align.
  destruct (Zpos (digits2_pos p) - 53 - 0) as [|q|q] eqn:Hdiff; [| lia |].
  - rewrite binary_round_aux_exact.
    + cbn [Number.to_integer cond_Zopp].
      change (0 <=? 0) with true. cbv iota.
      f_equal. change (2 ^ 0) with 1. lia.
    + unfold fexp, emin, Number.prec, Number.emax. cbn [Zdigits2]. lia.
    + unfold Number.prec, Number.emax. lia.
  - destruct (iter_xO p q) as [Hv Hdig].
    rewrite binary_round_aux_exact.
    + cbn [Number.to_integer cond_Zopp].
      assert (Hneg : (0 <=? Zpos (digits2_pos p) - 53) = false)
        by (apply Z.leb_gt; lia).
      rewrite Hneg.
      replace (- (Zpos (digits2_pos p) - 53)) with (Zpos q) by lia.
      rewrite Hv.
      assert (Hpq : 0 < 2 ^ Zpos q) by (apply Z.pow_pos_nonneg; lia).
      rewrite Z.mod_mul by lia. rewrite Z.eqb_refl.
      rewrite Z.div_mul by lia. reflexivity.
    + unfold fexp, emin, Number.prec, Number.emax. cbn [Zdigits2].
      rewrite Hdig. lia.
    + unfold Number.prec, Number.emax. lia.
Qed.

(** On the Numbers: for every result of [Math.random()],
    [Math.floor(r * 2000000000)] is an integer from 0 to 1999999999. *)
Lemma random_id_range (r : spec_float) :
  Number.is_random r = true ->
  exists n,
    Number.to_integer (Number.floor (Number.mul r Number.two_billion))
    = Some n
    /\ 0 <= n < 2000000000.
Proof.
  destruct r as [[|] | | | [|] m e]; try discriminate.
  - intros _. exists 0. split; [reflexivity | lia].
  - unfold Number.is_random. intros H.
    apply andb_true_iff in H. destruct H as [H Hlt].
    apply andb_true_iff in H. destruct H as [Hb He].
    apply Z.ltb_lt in He, Hlt.
    pose proof (@mul_two_billion_bound m e Hb He Hlt) as Hmul.
    destruct (Number.mul (S754_finite false m e) Number.two_billion)
      as [s | s | | s m2 e2]; try contradiction.
    + subst s. exists 0. split; [reflexivity | lia].
    + destruct Hmul as [-> [Hle Hval]].
      assert (HE : 0 < 2 ^ (22 - e)) by (apply Z.pow_pos_nonneg; lia).
      unfold Number.floor.
      destruct (0 <=? e2) eqn:Hsign.
      * apply Z.leb_le in Hsign. cbn [Number.to_integer cond_Zopp].
        apply Z.leb_le in Hsign. rewrite Hsign.
        exists (Zpos m2 * 2 ^ e2). split; [reflexivity|].
        assert (Hp : 0 < 2 ^ e2) by (apply Z.pow_pos_nonneg; lia).
        split; [lia|].
        replace (e2 - (e - 22)) with (e2 + (22 - e)) in Hval by lia.
        rewrite Z.pow_add_r in Hval by lia. nia.
      * apply Z.leb_gt in Hsign. cbn [cond_Zopp].
        rewrite Z.shiftr_div_pow2 by lia.
        set (n := Zpos m2 / 2 ^ (- e2)).
        assert (Hp : 0 < 2 ^ (- e2)) by (apply Z.pow_pos_nonneg; lia).
        assert (Hn0 : 0 <= n) by (apply Z.div_pos; lia).
        assert (Hn1 : n * 2 ^ (- e2) <= Zpos m2).
        { unfold n. rewrite Z.mul_comm. apply Z.mul_div_le. lia. }
        assert (Hsplit : 2 ^ (22 - e) = 2 ^ (- e2) * 2 ^ (e2 - (e - 22))).
        { rewrite <- Z.pow_add_r by lia. f_equal. lia. }
        assert (Hq : 0 < 2 ^ (e2 - (e - 22)))
          by (apply Z.pow_pos_nonneg; lia).
        assert (Hn : n < 2000000000).
        { rewrite Hsplit in Hval. nia. }
        exists n. split; [|lia].
        apply normalize_integer. split; [lia|].
        change (2 ^ 53) with 9007199254740992. lia.
Qed.


End DoubleArithmetic.

(** ** Encoding the root name *)

Lemma unreserved_not_surrogate (c : code_unit) :
  uri_unreserved c = true ->
  is_high_surrogate c = false /\ is_low_surrogate c = false.
Proof.
  unfold uri_unreserved, is_high_surrogate, is_low_surrogate. intros H.
  assert (Hsmall : (c < 128)%N).
  { repeat (apply orb_true_iff in H; destruct H as [H | H]);
      try (apply andb_true_iff in H; destruct H as [_ H];
           apply N.leb_le in H; lia);
      apply N.eqb_eq in H; lia. }
  split; apply andb_false_iff; left; apply N.leb_gt; lia.
Qed.

Lemma well_formed_cons (c : code_unit) (rest : JsString) :
  well_formed (c :: rest)
  = if is_high_surrogate c then
      match rest with
      | d :: rest' => is_low_surrogate d && well_formed rest'
      | [] => false
      end
    else if is_low_surrogate c then false
    else well_formed rest.
Proof. reflexivity. Qed.

Lemma encodeURIComponent_cons (c : code_unit) (rest : JsString) :
  encodeURIComponent (c :: rest)
  = if uri_unreserved c then
      bind (encodeURIComponent rest) (fun r => Return (c :: r))
    else if is_high_surrogate c then
      match rest with
      | d :: rest' =>
          if is_low_surrogate d then
            bind (encodeURIComponent rest') (fun r =>
              Return (flat_map percent
                        (utf8 (65536 + (c - 55296) * 1024 + (d - 56320))%N)
                      ++ r))
          else Throw (URIError "URI malformed")
      | [] => Throw (URIError "URI malformed")
      end
    else if is_low_surrogate c then Throw (URIError "URI malformed")
    else
      bind (encodeURIComponent rest) (fun r =>
        Return (flat_map percent (utf8 c) ++ r)).
Proof. reflexivity. Qed.

(** [encodeURIComponent] returns on the well-formed strings and throws a
    URIError on the strings that hold a lone surrogate. *)
Lemma encodeURIComponent_outcome (s : JsString) :
  (well_formed s = true -> exists q, encodeURIComponent s = Return q)
  /\ (well_formed s = false ->
      encodeURIComponent s = Throw (URIError "URI malformed")).
Proof.
  assert (H : (well_formed s = true ->
               exists q, encodeURIComponent s = Return q)
              /\ (well_formed s = false ->
                  encodeURIComponent s = Throw (URIError "URI malformed"))
              /\ forall c,
                  (well_formed (c :: s) = true ->
                   exists q, encodeURIComponent (c :: s) = Return q)
                  /\ (well_formed (c :: s) = false ->
                      encodeURIComponent (c :: s)
                      = Throw (URIError "URI malformed"))).
  { induction s as [|d rest IH].
    - split; [intros _; exists []; reflexivity|].
      split; [discriminate|].
      intros c. cbn [well_formed encodeURIComponent].
      destruct (uri_unreserved c) eqn:Hu.
      + destruct (unreserved_not_surrogate c Hu) as [-> ->].
        split; [intros _; eexists; reflexivity | discriminate].
      + destruct (is_high_surrogate c); [split; [discriminate | reflexivity]|].
        destruct (is_low_surrogate c); [split; [discriminate | reflexivity]|].
        split; [intros _; eexists; reflexivity | discriminate].
    - destruct IH as [IHt [IHf IHc]].
      split; [apply IHc|]. split; [apply IHc|].
      intros c. rewrite well_formed_cons, encodeURIComponent_cons.
      cbv beta iota.
      destruct (uri_unreserved c) eqn:Hu.
      + destruct (unreserved_not_surrogate c Hu) as [-> ->].
        destruct (IHc d) as [Ht Hf]. split; intros Hw.
        * destruct (Ht Hw) as [q ->]. eexists. reflexivity.
        * rewrite (Hf Hw). reflexivity.
      + destruct (is_high_surrogate c).
        * destruct (is_low_surrogate d); simpl.
          -- split; intros Hw.
             ++ destruct (IHt Hw) as [q ->]. eexists. reflexivity.
             ++ rewrite (IHf Hw). reflexivity.
          -- split; [discriminate | reflexivity].
        * destruct (is_low_surrogate c);
            [split; [discriminate | reflexivity]|].
          destruct (IHc d) as [Ht Hf]. split; intros Hw.
          -- destruct (Ht Hw) as [q ->]. eexists. reflexivity.
          -- rewrite (Hf Hw). reflexivity. }
  split; apply H.
Qed.

(** C9: every create request that [createTree] sends carries the tree id
    [Math.floor(rnd * 2000000000)] computed from the client's own random
    double [rnd] (it does not depend on the listing held in the state), and
    for every double that [Math.random()] can return this id is an integer
    at least 0 and less than 2,000,000,000; such a request is sent whenever
    the name is not blank and can be encoded. *)
Theorem createTree_id_range
  (rnd : spec_float) (net : bool) (st : TreeManager.State) :
  Number.is_random rnd = true ->
  (forall t q,
      In (Fetch (CreateRoot t q)) (snd (TreeManager.createTree rnd net st)) ->
      t = Number.floor (Number.mul rnd Number.two_billion)
      /\ exists n, Number.to_integer t = Some n /\ (0 <= n < 2000000000)%Z)
  /\ (trim (TreeManager.newTreeName st) <> [] ->
      well_formed (TreeManager.newTreeName st) = true ->
      exists q,
        encodeURIComponent (TreeManager.newTreeName st) = Return q
        /\ In (Fetch (CreateRoot
                        (Number.floor (Number.mul rnd Number.two_billion)) q))
              (snd (TreeManager.createTree rnd net st))).
Proof.
  intros Hrnd.
  destruct (random_id_range rnd Hrnd) as [n [Hn Hrange]].
  unfold TreeManager.createTree.
  destruct (negb (truthy_string (trim (TreeManager.newTreeName st))))
    eqn:Hblank.
  - split; [intros t q []|].
    intros Hname. apply blank_not_truthy in Hblank. contradiction.
  - destruct (encodeURIComponent (TreeManager.newTreeName st)) as [q|e] eqn:Henc.
    + split.
      * intros t q' Hin.
        assert (Ht : t = Number.floor (Number.mul rnd Number.two_billion)).
        { destruct net; simpl in Hin.
          - destruct Hin as [H | [H | []]]; [congruence | discriminate H].
          - destruct Hin as [H | []]. congruence. }
        subst t. split; [reflexivity|]. exists n. split; assumption.
      * intros _ _. exists q. split; [reflexivity|].
        destruct net; simpl; left; reflexivity.
    + split; [intros t q []|].
      intros _ Hwf.
      destruct (proj1 (encodeURIComponent_outcome _) Hwf) as [q Hq].
      congruence.
Qed.

Lemma createTree_id_range_witness :
  Number.is_random one_half = true
  /\ In (Fetch (CreateRoot
                  (Number.floor (Number.mul one_half Number.two_billion))
                  (lit "root")))
        (snd (TreeManager.createTree one_half true naming_root))
  /\ exists n,
       Number.to_integer
         (Number.floor (Number.mul one_half Number.two_billion)) = Some n
       /\ (0 <= n < 2000000000)%Z.
Proof.
  assert (Hr : Number.is_random one_half = true) by reflexivity.
  assert (Hin : In (Fetch (CreateRoot
                             (Number.floor
                                (Number.mul one_half Number.two_billion))
                             (lit "root")))
                  (snd (TreeManager.createTree one_half true naming_root)))
    by (left; reflexivity).
  split; [exact Hr|]. split; [exact Hin|].
  exact (proj2 (proj1 (createTree_id_range one_half true naming_root Hr)
                  _ _ Hin)).
Defined.

(** The largest double below one gives the largest id, 1999999999; the
    smallest positive double gives 0. *)
Example createTree_id_extremes :
  Number.to_integer
    (Number.floor
       (Number.mul (S754_finite false 9007199254740991 (-53))
          Number.two_billion))
  = Some 1999999999%Z
  /\ Number.to_integer
       (Number.floor
          (Number.mul (S754_finite false 1 (-1074)) Number.two_billion))
     = Some 0%Z.
Proof. split; vm_compute; reflexivity. Qed.

(** * Further properties of the client *)

(** ** What the export keeps of a tree *)

(** The part of a node that the export depends on: the names, the shape,
    and the data of the nodes without children. Identifiers, paths and the
    data held by a node that has children are blanked. *)
Fixpoint content (node : TreeNodeType) : TreeNodeType :=
  match node with
  | mkNode _ _ _ nm d ch =>
      mkNode 0 0 [] nm
        (if (0 <? List.length ch)%nat then None else d)
        (map content ch)
  end.

(** The card that the tree list shows for a tree that has a root. *)
Definition card_of (tree : TreeType) (r : TreeNodeType) : TreeManager.TreeCard :=
  TreeManager.mkCard (tree_tree_id tree) (Some r) (renderTree r).

Definition has_root (tree : TreeType) : bool :=
  match root tree with
  | Some _ => true
  | None => false
  end.

Lemma of_nullable_inj (d1 d2 : option JsString) :
  of_nullable d1 = of_nullable d2 -> d1 = d2.
Proof.
  destruct d1, d2; simpl; congruence.
Qed.

Lemma renderTree_content (node : TreeNodeType) :
  renderTree (content node) = renderTree node.
Proof.
  induction node as [i t p nm d ch IH] using TreeNodeType_forall_ind.
  destruct ch as [|c cs]; [reflexivity|].
  rewrite (@renderTree_internal (mkNode i t p nm d (c :: cs)))
    by (simpl; congruence).
  rewrite (@renderTree_internal (content (mkNode i t p nm d (c :: cs))))
    by (simpl; congruence).
  cbn [content Tree.name children]. rewrite map_map.
  rewrite (map_ext_Forall _ _ IH). reflexivity.
Qed.

Lemma map_renderTree_content (ch1 : list TreeNodeType) :
  Forall (fun c => forall n2, renderTree c = renderTree n2 ->
                              content c = content n2) ch1 ->
  forall ch2,
    map renderTree ch1 = map renderTree ch2 ->
    map content ch1 = map content ch2.
Proof.
  induction 1 as [|c cs Hc _ IH]; intros [|c2 cs2] Hmap;
    simpl in Hmap; try discriminate; [reflexivity|].
  injection Hmap as Hhd Htl. simpl. f_equal; auto.
Qed.

(** X1: two nodes export to the same value exactly when they agree on
    names, on shape, and on the data of their childless nodes. Identifiers,
    tree ids and paths never reach the export, and neither does the data
    held by a node that has children. *)
Theorem renderTree_eq_iff_content (n1 n2 : TreeNodeType) :
  renderTree n1 = renderTree n2 <-> content n1 = content n2.
Proof.
  split.
  - revert n2.
    induction n1 as [i1 t1 p1 nm1 d1 ch1 IH] using TreeNodeType_forall_ind.
    intros [i2 t2 p2 nm2 d2 ch2] Heq.
    destruct ch1 as [|c1 cs1], ch2 as [|c2 cs2].
    + cbn in Heq. injection Heq as Hnm Hd.
      apply of_nullable_inj in Hd. subst. reflexivity.
    + cbn in Heq. discriminate Heq.
    + cbn in Heq. discriminate Heq.
    + rewrite (@renderTree_internal (mkNode i1 t1 p1 nm1 d1 (c1 :: cs1)))
        in Heq by (simpl; congruence).
      rewrite (@renderTree_internal (mkNode i2 t2 p2 nm2 d2 (c2 :: cs2)))
        in Heq by (simpl; congruence).
      cbn [Tree.name children] in Heq.
      assert (Hnm : nm1 = nm2) by congruence.
      assert (Hch : map renderTree (c1 :: cs1) = map renderTree (c2 :: cs2))
        by congruence.
      subst nm2.
      pose proof (map_renderTree_content IH (c2 :: cs2) Hch) as Hmap.
      cbn [content List.length Nat.ltb Nat.leb].
      rewrite Hmap. reflexivity.
  - intros Heq.
    rewrite <- (renderTree_content n1), <- (renderTree_content n2), Heq.
    reflexivity.
Qed.

(** ** The tree list *)

Lemma render_card_rooted (tid : Z) (r : TreeNodeType) :
  TreeManager.render_card (mkTree tid (Some r))
  = Return (card_of (mkTree tid (Some r)) r).
Proof. reflexivity. Qed.

Lemma render_card_rootless (tid : Z) :
  TreeManager.render_card (mkTree tid None)
  = Throw (TypeError "Cannot read properties of null (reading 'name')").
Proof. reflexivity. Qed.

Lemma mapM_render_card_rooted (trees : list TreeType) :
  forallb has_root trees = true ->
  exists cards,
    mapM TreeManager.render_card trees = Return cards
    /\ map TreeManager.card_tree_id cards = map tree_tree_id trees
    /\ map TreeManager.card_node cards = map root trees
    /\ map (fun c => Some (TreeManager.card_export c)) cards
       = map (fun t => option_map renderTree (root t)) trees.
Proof.
  induction trees as [|[tid [r|]] rest IH]; cbn [forallb]; intros Hall.
  - exists []. repeat split.
  - destruct (IH Hall) as [cards [Hm [Hid [Hnode Hexp]]]].
    exists (card_of (mkTree tid (Some r)) r :: cards).
    cbn [mapM]. rewrite render_card_rooted, Hm.
    split; [reflexivity|].
    cbn [map]. rewrite Hid, Hnode, Hexp. repeat split.
  - discriminate Hall.
Qed.

Lemma mapM_render_card_rootless (trees : list TreeType) :
  forallb has_root trees = false ->
  mapM TreeManager.render_card trees
  = Throw (TypeError "Cannot read properties of null (reading 'name')").
Proof.
  induction trees as [|[tid [r|]] rest IH]; cbn [forallb]; intros Hall.
  - discriminate Hall.
  - cbn [mapM]. rewrite render_card_rooted, (IH Hall). reflexivity.
  - cbn [mapM]. rewrite render_card_rootless. reflexivity.
Qed.

(** X2: the manager shows the loading placeholder while [loading] or
    [isUpdating]; otherwise, when every listed tree has a root, it shows
    one card per tree, in listing order, each with the tree's id, its root
    node and the export of that root; and when some listed tree has no
    root, rendering throws the TypeError of [renderTree(null)]. *)
Theorem render_outcome (st : TreeManager.State) :
  (TreeManager.loading st || TreeManager.isUpdating st = true ->
   TreeManager.render st = Return TreeManager.LoadingView)
  /\ (TreeManager.loading st || TreeManager.isUpdating st = false ->
      forallb has_root (TreeManager.trees st) = true ->
      exists cards,
        TreeManager.render st
        = Return (TreeManager.TreesView cards (TreeManager.showCreateDialog st))
        /\ map TreeManager.card_tree_id cards
           = map tree_tree_id (TreeManager.trees st)
        /\ map TreeManager.card_node cards = map root (TreeManager.trees st)
        /\ map (fun c => Some (TreeManager.card_export c)) cards
           = map (fun t => option_map renderTree (root t))
               (TreeManager.trees st))
  /\ (TreeManager.loading st || TreeManager.isUpdating st = false ->
      forallb has_root (TreeManager.trees st) = false ->
      TreeManager.render st
      = Throw (TypeError "Cannot read properties of null (reading 'name')")).
Proof.
  unfold TreeManager.render. split; [intros ->; reflexivity|]. split.
  - intros -> Hall.
    destruct (mapM_render_card_rooted _ Hall) as [cards [Hm H]].
    exists cards. rewrite Hm. split; [reflexivity | exact H].
  - intros -> Hall. rewrite (mapM_render_card_rootless _ Hall). reflexivity.
Qed.

(** ** Blank names *)

Lemma trimStart_nil_iff (s : JsString) :
  trimStart s = [] <-> forallb is_white_space s = true.
Proof.
  induction s as [|c rest IH]; simpl; [tauto|].
  destruct (is_white_space c); simpl; [exact IH|].
  split; discriminate.
Qed.

Lemma trimStart_head (s : JsString) (c : code_unit) (t : JsString) :
  trimStart s = c :: t -> is_white_space c = false.
Proof.
  induction s as [|a rest IH]; simpl; [discriminate|].
  destruct (is_white_space a) eqn:Ha; [exact IH|].
  intros [= <- _]. exact Ha.
Qed.

(** [s.trim()] is empty exactly when every code unit of [s] is white
    space or a line terminator. *)
Lemma trim_nil_iff (s : JsString) :
  trim s = [] <-> forallb is_white_space s = true.
Proof.
  unfold trim, trimEnd. split.
  - intros H. apply (f_equal (@rev _)) in H.
    rewrite rev_involutive in H. simpl in H.
    apply trimStart_nil_iff in H.
    destruct (trimStart s) as [|c t] eqn:E.
    + apply trimStart_nil_iff. exact E.
    + apply trimStart_head in E.
      rewrite forallb_forall in H.
      specialize (H c). rewrite <- in_rev in H.
      rewrite H in E by (left; reflexivity). discriminate E.
  - intros H. apply trimStart_nil_iff in H. rewrite H. reflexivity.
Qed.

Lemma not_blank_iff (s : JsString) :
  negb (truthy_string (trim s)) = false <-> forallb is_white_space s = false.
Proof.
  pose proof (trim_nil_iff s) as Hiff.
  destruct (trim s) as [|c t]; simpl;
    destruct (forallb is_white_space s); split; try congruence; intros _.
  - destruct Hiff as [H _]. specialize (H eq_refl). discriminate H.
  - destruct Hiff as [_ H]. specialize (H eq_refl). discriminate H.
Qed.

(** X3: [createTree] sends nothing and leaves the state as it was
    exactly when the typed root name consists of white space only (the
    empty name included) or holds a lone surrogate, which
    [encodeURIComponent] refuses. Otherwise it sends one create request
    that carries the encoding of the name as typed, not trimmed; when the
    request is fulfilled it closes the dialog, clears the name field,
    starts reloading the list and asks for the listing, and when the
    request is rejected it leaves the state as it was and sends nothing
    more. *)
Theorem createTree_outcome
  (rnd : spec_float) (net : bool) (st : TreeManager.State) :
  (snd (TreeManager.createTree rnd net st) = []
   <-> forallb is_white_space (TreeManager.newTreeName st) = true
       \/ well_formed (TreeManager.newTreeName st) = false)
  /\ (snd (TreeManager.createTree rnd net st) = [] ->
      fst (TreeManager.createTree rnd net st) = st)
  /\ (forallb is_white_space (TreeManager.newTreeName st) = false ->
      well_formed (TreeManager.newTreeName st) = true ->
      exists q,
        encodeURIComponent (TreeManager.newTreeName st) = Return q
        /\ TreeManager.createTree rnd net st
           = (if net
              then TreeManager.setLoading true
                     (TreeManager.setNewTreeName []
                        (TreeManager.setShowCreateDialog false st))
              else st,
              Fetch (CreateRoot
                       (Number.floor (Number.mul rnd Number.two_billion)) q)
                :: (if net then [Fetch ListTrees] else []))).
Proof.
  unfold TreeManager.createTree.
  destruct (negb (truthy_string (trim (TreeManager.newTreeName st))))
    eqn:Hblank.
  - apply blank_not_truthy, trim_nil_iff in Hblank.
    split; [split; auto|]. split; [reflexivity|]. congruence.
  - apply not_blank_iff in Hblank.
    destruct (encodeURIComponent_outcome (TreeManager.newTreeName st))
      as [Hok Hbad].
    destruct (well_formed (TreeManager.newTreeName st)) eqn:Hwf.
    + destruct (Hok eq_refl) as [q Hq]. rewrite Hq.
      split; [|split].
      * destruct net; simpl; split; try discriminate;
          intros [H | H]; congruence.
      * destruct net; simpl; discriminate.
      * intros _ _. exists q. split; [reflexivity|].
        destruct net; reflexivity.
    + rewrite (Hbad eq_refl).
      split; [split; auto|]. split; [reflexivity|]. discriminate.
Qed.

Lemma createTree_outcome_witness :
  forallb is_white_space (lit " my tree ") = false
  /\ well_formed (lit " my tree ") = true
  /\ exists q,
       encodeURIComponent (lit " my tree ") = Return q
       /\ TreeManager.createTree one_half false
            (TreeManager.setNewTreeName (lit " my tree ") naming_root)
          = (TreeManager.setNewTreeName (lit " my tree ") naming_root,
             [Fetch (CreateRoot
                       (Number.floor (Number.mul one_half Number.two_billion))
                       q)]).
Proof.
  split; [reflexivity|]. split; [reflexivity|].
  exact (proj2 (proj2 (createTree_outcome one_half false
                         (TreeManager.setNewTreeName (lit " my tree ")
                            naming_root)))
           eq_refl eq_refl).
Defined.

(** A name with a lone surrogate is refused by [encodeURIComponent]:
    nothing is sent; and the encoding of " my tree " keeps its blanks as
    escapes. *)
Example createTree_lone_surrogate :
  TreeManager.createTree one_half true
    (TreeManager.setNewTreeName [55296%N] naming_root)
  = (TreeManager.setNewTreeName [55296%N] naming_root, [])
  /\ encodeURIComponent (lit " my tree ") = Return (lit "%20my%20tree%20")
  /\ encodeURIComponent [233%N; 55357%N; 56832%N]
     = Return (lit "%C3%A9%F0%9F%98%80").
Proof. repeat split. Qed.

(** ** Reloading the list *)

(** X4: when a node asks for a reload, the manager shows the loading
    placeholder whatever the listing holds (no [TreeNode] stays mounted,
    and nothing is exported meanwhile) and asks for the listing once; when
    the answer arrives both flags are cleared, a parsed listing replaces
    the trees, a failed load keeps the trees that were there, and the
    create dialog and its name field are untouched. *)
Theorem reload_then_loaded
  (st : TreeManager.State) (json : option (list TreeType)) :
  TreeManager.render (fst (TreeManager.reload st))
  = Return TreeManager.LoadingView
  /\ snd (TreeManager.reload st) = [Fetch ListTrees]
  /\ TreeManager.trees (fst (TreeManager.reload st)) = TreeManager.trees st
  /\ TreeManager.loading
       (TreeManager.loadTrees_end json (fst (TreeManager.reload st))) = false
  /\ TreeManager.isUpdating
       (TreeManager.loadTrees_end json (fst (TreeManager.reload st))) = false
  /\ TreeManager.trees
       (TreeManager.loadTrees_end json (fst (TreeManager.reload st)))
     = match json with
       | Some ts => ts
       | None => TreeManager.trees st
       end
  /\ TreeManager.showCreateDialog
       (TreeManager.loadTrees_end json (fst (TreeManager.reload st)))
     = TreeManager.showCreateDialog st
  /\ TreeManager.newTreeName
       (TreeManager.loadTrees_end json (fst (TreeManager.reload st)))
     = TreeManager.newTreeName st.
Proof.
  destruct json; repeat split.
Qed.

(** ** Requests of a mounted node *)

(** What a request of the node [node] of tree [treeId] may be: a child
    added under this node, with a name that is not blank and a string as
    data; a PATCH of this node; the deletion of this node's path in this
    tree. It is never a tree creation or a listing. *)
Definition request_of_node (node : TreeNodeType) (treeId : Z) (e : Effect)
  : Prop :=
  match e with
  | Fetch (AddNode t body) =>
      t = treeId
      /\ exists nm d,
           body = JObj [("parent_id", JNum (id node));
                        ("name", JStr nm); ("data", JStr d)]
           /\ forallb is_white_space nm = false
  | Fetch (PatchNode i _) => i = id node
  | Fetch (DeleteNode t p) => t = treeId /\ p = path node
  | Fetch (CreateRoot _ _) => False
  | Fetch ListTrees => False
  | Reload => True
  end.

(** Whether the request that an event sends, if it sends one, is
    fulfilled. *)
Definition fulfils (ev : TreeNode.Event) : bool :=
  match ev with
  | TreeNode.NameBlur net | TreeNode.NameKeyDown _ net
  | TreeNode.AddSubmit net | TreeNode.EditSubmit net
  | TreeNode.DeleteConfirm net => net
  | _ => false
  end.

Definition is_reload (e : Effect) : bool :=
  match e with
  | Reload => true
  | Fetch _ => false
  end.

Definition is_delete (e : Effect) : bool :=
  match e with
  | Fetch (DeleteNode _ _) => true
  | _ => false
  end.

Definition is_add (e : Effect) : bool :=
  match e with
  | Fetch (AddNode _ _) => true
  | _ => false
  end.

Definition is_delete_click (ev : TreeNode.Event) : bool :=
  match ev with
  | TreeNode.DeleteClick => true
  | _ => false
  end.

Definition is_add_click (ev : TreeNode.Event) : bool :=
  match ev with
  | TreeNode.AddChildClick => true
  | _ => false
  end.

Section MoreSessions.

Variable node : TreeNodeType.
Variable treeId : Z.

Ltac unfold_handlers :=
  unfold TreeNode.handleNameUpdate, TreeNode.handleAddChild,
    TreeNode.handleUpdateData, TreeNode.handleDeleteNode.

Ltac split_ifs :=
  repeat match goal with
    | |- context [if ?b then _ else _] => destruct b eqn:?
    end.

Lemma step_request_of_node (st : TreeNode.State) (ev : TreeNode.Event) :
  Forall (request_of_node node treeId) (snd (TreeNode.step node treeId st ev)).
Proof.
  unfold TreeNode.step.
  destruct (TreeNode.enabled node st ev); [|constructor].
  destruct ev; simpl; try (constructor; fail); unfold_handlers; split_ifs;
    simpl; repeat (apply Forall_cons || apply Forall_nil); simpl; auto.
  all: split; [reflexivity|]; eexists _, _; split; [reflexivity|];
    apply not_blank_iff; assumption.
Qed.

(** X5: whatever the user does on a mounted node, every request it sends
    concerns that node: a child is added under [node.id] in the tree of the
    props, with a name that has a character other than white space and with
    a string (never [null]) as data; a PATCH goes to [node.id]; a deletion
    names the tree of the props and [node.path]. A node never creates a
    tree and never fetches the listing itself. *)
Theorem session_requests_of_node
  (st : TreeNode.State) (evs : list TreeNode.Event) :
  Forall (request_of_node node treeId)
    (snd (TreeNode.run node treeId st evs)).
Proof.
  apply (@run_invariant node treeId (fun _ => True)
           (request_of_node node treeId)); [|exact I].
  intros st0 ev _. split; [exact I | apply step_request_of_node].
Qed.

Lemma step_without_delete_click (st : TreeNode.State) (ev : TreeNode.Event) :
  is_delete_click ev = false ->
  TreeNode.showDeleteDialog st = false ->
  TreeNode.showDeleteDialog (fst (TreeNode.step node treeId st ev)) = false
  /\ existsb is_delete (snd (TreeNode.step node treeId st ev)) = false.
Proof.
  intros Hev Hclosed. unfold TreeNode.step.
  destruct (TreeNode.enabled node st ev) eqn:Hen; [|auto].
  destruct ev; simpl in *; try discriminate; try congruence; auto;
    unfold_handlers; split_ifs; simpl; auto.
Qed.

Lemma step_without_add_click (st : TreeNode.State) (ev : TreeNode.Event) :
  is_add_click ev = false ->
  TreeNode.showAddDialog st = false ->
  TreeNode.showAddDialog (fst (TreeNode.step node treeId st ev)) = false
  /\ existsb is_add (snd (TreeNode.step node treeId st ev)) = false.
Proof.
  intros Hev Hclosed. unfold TreeNode.step.
  destruct (TreeNode.enabled node st ev) eqn:Hen; [|auto].
  destruct ev; simpl in *; try discriminate; try congruence; auto;
    unfold_handlers; split_ifs; simpl; auto.
Qed.

(** X7: nothing is deleted without the "Delete" button and nothing is added
    without the "Add Child" button: a session from the mounted state in
    which "Delete" is never clicked sends no DELETE, and one in which
    "Add Child" is never clicked sends no add request, whatever other
    events occur. *)
Theorem mutation_needs_its_button (evs : list TreeNode.Event) :
  (existsb is_delete_click evs = false ->
   existsb is_delete
     (snd (TreeNode.run node treeId (TreeNode.init node) evs)) = false)
  /\ (existsb is_add_click evs = false ->
      existsb is_add
        (snd (TreeNode.run node treeId (TreeNode.init node) evs)) = false).
Proof.
  split.
  - assert (H : forall st,
               TreeNode.showDeleteDialog st = false ->
               existsb is_delete_click evs = false ->
               existsb is_delete (snd (TreeNode.run node treeId st evs))
               = false).
    { induction evs as [|ev rest IH]; intros st Hclosed Hno; simpl;
        [reflexivity|].
      simpl in Hno. apply orb_false_iff in Hno. destruct Hno as [Hev Hrest].
      destruct (step_without_delete_click st ev Hev Hclosed) as [H1 H2].
      destruct (TreeNode.step node treeId st ev) as [st1 effs1].
      simpl in H1, H2. specialize (IH st1 H1 Hrest).
      destruct (TreeNode.run node treeId st1 rest) as [st2 effs2].
      simpl in *. rewrite existsb_app, H2, IH. reflexivity. }
    apply H. reflexivity.
  - assert (H : forall st,
               TreeNode.showAddDialog st = false ->
               existsb is_add_click evs = false ->
               existsb is_add (snd (TreeNode.run node treeId st evs))
               = false).
    { induction evs as [|ev rest IH]; intros st Hclosed Hno; simpl;
        [reflexivity|].
      simpl in Hno. apply orb_false_iff in Hno. destruct Hno as [Hev Hrest].
      destruct (step_without_add_click st ev Hev Hclosed) as [H1 H2].
      destruct (TreeNode.step node treeId st ev) as [st1 effs1].
      simpl in H1, H2. specialize (IH st1 H1 Hrest).
      destruct (TreeNode.run node treeId st1 rest) as [st2 effs2].
      simpl in *. rewrite existsb_app, H2, IH. reflexivity. }
    apply H. reflexivity.
Qed.

End MoreSessions.

(** ** Renaming *)

Section Renaming.

Variable node : TreeNodeType.
Variable treeId : Z.




Lemma run_cons (st : TreeNode.State) (ev : TreeNode.Event)
  (rest : list TreeNode.Event) :
  TreeNode.run node treeId st (ev :: rest)
  = (let '(st1, effs1) := TreeNode.step node treeId st ev in
     let '(st2, effs2) := TreeNode.run node treeId st1 rest in
     (st2, effs1 ++ effs2)).
Proof. reflexivity. Qed.

Lemma typing_then_escape (net : bool) (vs : list JsString) :
  forall st,
    TreeNode.editing st = true ->
    TreeNode.run node treeId st
      (map TreeNode.NameChange vs
         ++ [TreeNode.NameKeyDown (lit "Escape") net])
    = (TreeNode.setEditing false (TreeNode.setName (Tree.name node) st), []).
Proof.
  induction vs as [|v rest IH]; intros st Hed.
  - simpl. unfold TreeNode.step. simpl. rewrite Hed. reflexivity.
  - simpl. unfold TreeNode.step at 1. simpl. rewrite Hed.
    rewrite IH by exact Hed. reflexivity.
Qed.

(** X9: a rename that is given up with Escape leaves no trace: from a
    state outside edit mode whose [name] is the stored name, a double
    click, any typing in the name input and Escape bring the component
    back to the same state, and nothing is sent. *)
Theorem rename_escape_round_trip
  (st : TreeNode.State) (vs : list JsString) (net : bool) :
  TreeNode.editing st = false ->
  TreeNode.name st = Tree.name node ->
  TreeNode.run node treeId st
    (TreeNode.NameDoubleClick
       :: map TreeNode.NameChange vs
       ++ [TreeNode.NameKeyDown (lit "Escape") net])
  = (st, []).
Proof.
  intros Hed Hname.
  assert (Hstep : TreeNode.step node treeId st TreeNode.NameDoubleClick
                  = (TreeNode.setEditing true st, [])).
  { unfold TreeNode.step. simpl. rewrite Hed. reflexivity. }
  rewrite run_cons, Hstep, typing_then_escape by reflexivity.
  destruct st. simpl in *. subst. reflexivity.
Qed.

End Renaming.


Lemma rename_escape_round_trip_witness :
  TreeNode.editing (TreeNode.init scenario_root) = false
  /\ TreeNode.run scenario_root 1 (TreeNode.init scenario_root)
       (TreeNode.NameDoubleClick
          :: map TreeNode.NameChange [lit "r"; lit "ro"; lit "rot"]
          ++ [TreeNode.NameKeyDown (lit "Escape") true])
     = (TreeNode.init scenario_root, []).
Proof.
  split; [reflexivity|].
  exact (@rename_escape_round_trip scenario_root 1%Z
           (TreeNode.init scenario_root) [lit "r"; lit "ro"; lit "rot"] true
           eq_refl eq_refl).
Defined.

(** ** The data editor *)

Lemma run_app (node : TreeNodeType) (treeId : Z)
  (evs1 evs2 : list TreeNode.Event) :
  forall st,
    TreeNode.run node treeId st (evs1 ++ evs2)
    = (let '(st1, effs1) := TreeNode.run node treeId st evs1 in
       let '(st2, effs2) := TreeNode.run node treeId st1 evs2 in
       (st2, effs1 ++ effs2)).
Proof.
  induction evs1 as [|ev rest IH]; intros st; simpl.
  - destruct (TreeNode.run node treeId st evs2). reflexivity.
  - destruct (TreeNode.step node treeId st ev) as [st1 effs1].
    rewrite IH.
    destruct (TreeNode.run node treeId st1 rest) as [st2 effs2].
    destruct (TreeNode.run node treeId st2 evs2) as [st3 effs3].
    rewrite app_assoc. reflexivity.
Qed.

(** X10: on a node without children the data editor always opens on the
    stored data: whatever happened before on the mounted node (typing in an
    earlier opening of the editor that was cancelled included), clicking
    "Edit Data" and saving at once sends exactly one PATCH of this node with
    [node.data ?? ""], followed by a reload when it is fulfilled. *)
Theorem editor_opens_on_stored_data
  (node : TreeNodeType) (treeId : Z) (st : TreeNode.State)
  (evs : list TreeNode.Event) (net : bool) :
  children node = [] ->
  snd (TreeNode.run node treeId st
         (evs ++ [TreeNode.EditDataClick; TreeNode.EditSubmit net]))
  = snd (TreeNode.run node treeId st evs)
    ++ Fetch (PatchNode (id node)
                (JObj [("data", JStr (nullish (data node) []))]))
    :: (if net then [Reload] else []).
Proof.
  intros Hleaf. rewrite run_app.
  destruct (TreeNode.run node treeId st evs) as [st1 effs1].
  simpl. unfold TreeNode.step. simpl.
  replace (TreeNode.edit_data_offered node) with true
    by (symmetry; apply edit_data_offered_iff; exact Hleaf).
  simpl. destruct net; reflexivity.
Qed.

Lemma editor_opens_on_stored_data_witness :
  children node_a = []
  /\ snd (TreeNode.run node_a 1 (TreeNode.init node_a)
            ([TreeNode.EditDataClick; TreeNode.DataChange (lit "draft");
              TreeNode.EditCancel]
             ++ [TreeNode.EditDataClick; TreeNode.EditSubmit true]))
     = [Fetch (PatchNode 2 (JObj [("data", JStr (lit ""))])); Reload].
Proof.
  split; [reflexivity|].
  exact (@editor_opens_on_stored_data node_a 1%Z (TreeNode.init node_a)
           [TreeNode.EditDataClick; TreeNode.DataChange (lit "draft");
            TreeNode.EditCancel] true eq_refl).
Defined.

(** ** Handlers that overlap *)

(** Each handler of [TreeNode] sends its request and then waits for it
    ([await fetch]); what follows the [await] runs when the request is
    fulfilled, and meanwhile the component stays as it was and takes further
    events. [TreeNode.step] lets every request settle at once; here the two
    halves of a handler are separate steps. *)
Module TreeNodeAsync.

(** What a handler still has to do once its request is fulfilled. *)
Inductive Continuation : Type :=
| AfterAddChild
| AfterUpdateData
| AfterDeleteNode
| AfterNameUpdate.

(** The part of each handler after its [await]. *)
Definition resume (k : Continuation) (st : TreeNode.State)
  : TreeNode.State * list Effect :=
  match k with
  | AfterAddChild =>
      (TreeNode.setChildName [] (TreeNode.setShowAddDialog false st), [Reload])
  | AfterUpdateData => (TreeNode.setShowEditDialog false st, [Reload])
  | AfterDeleteNode => (TreeNode.setShowDeleteDialog false st, [Reload])
  | AfterNameUpdate => (TreeNode.setEditing false st, [Reload])
  end.

Definition Started : Type :=
  (TreeNode.State * list Effect * option Continuation)%type.

Section Handlers.

Variable node : TreeNodeType.
Variable treeId : Z.

(** The part of each handler up to its [await]. *)
Definition handleAddChild_start (st : TreeNode.State) : Started :=
  if negb (truthy_string (trim (TreeNode.childName st))) then (st, [], None)
  else
    (st,
     [Fetch (AddNode treeId
               (JObj [("parent_id", JNum (id node));
                      ("name", JStr (TreeNode.childName st));
                      ("data", JStr (TreeNode.childDataValue st))]))],
     Some AfterAddChild).

Definition handleUpdateData_start (st : TreeNode.State) : Started :=
  (st,
   [Fetch (PatchNode (id node) (JObj [("data", JStr (TreeNode.dataValue st))]))],
   Some AfterUpdateData).

Definition handleDeleteNode_start (st : TreeNode.State) : Started :=
  (st, [Fetch (DeleteNode treeId (path node))], Some AfterDeleteNode).

Definition handleNameUpdate_start (st : TreeNode.State) : Started :=
  if negb (truthy_string (trim (TreeNode.name st))) then
    (TreeNode.setEditing false (TreeNode.setName (Tree.name node) st), [], None)
  else if negb (JsString_eqb (TreeNode.name st) (Tree.name node)) then
    (st,
     [Fetch (PatchNode (id node) (JObj [("name", JStr (TreeNode.name st))]))],
     Some AfterNameUpdate)
  else (TreeNode.setEditing false st, [], None).

(** The synchronous part of the handler of each event; the flag that an
    event of [TreeNode.Event] carries is not read here, the outcome of a
    request comes with its own event below. *)
Definition start (st : TreeNode.State) (ev : TreeNode.Event) : Started :=
  match ev with
  | TreeNode.NameBlur _ => handleNameUpdate_start st
  | TreeNode.NameKeyDown key _ =>
      if JsString_eqb key (lit "Enter") then handleNameUpdate_start st
      else (TreeNode.handle node treeId st ev, None)
  | TreeNode.AddSubmit _ => handleAddChild_start st
  | TreeNode.EditSubmit _ => handleUpdateData_start st
  | TreeNode.DeleteConfirm _ =>
      handleDeleteNode_start (TreeNode.setShowDeleteDialog false st)
  | _ => (TreeNode.handle node treeId st ev, None)
  end.

(** A mounted component with the requests it is waiting for, oldest
    first. *)
Record Machine : Type :=
  mkMachine {
    state : TreeNode.State;
    pending : list Continuation
  }.

Inductive Event : Type :=
| Ui (ev : TreeNode.Event)
| Settle (i : nat) (ok : bool).

Fixpoint remove_nth {A} (i : nat) (l : list A) : list A :=
  match l, i with
  | [], _ => []
  | _ :: rest, O => rest
  | a :: rest, S j => a :: remove_nth j rest
  end.

(** One step: a user event runs the synchronous part of its handler and
    leaves the rest pending; the [i]-th pending request settles, and its
    handler resumes when it was fulfilled and stops when it was rejected. *)
Definition step (m : Machine) (e : Event) : Machine * list Effect :=
  match e with
  | Ui ev =>
      if TreeNode.enabled node (state m) ev then
        let '(st', effs, k) := start (state m) ev in
        (mkMachine st'
           (pending m ++ match k with Some c => [c] | None => [] end),
         effs)
      else (m, [])
  | Settle i ok =>
      match nth_error (pending m) i with
      | None => (m, [])
      | Some k =>
          if ok then
            let '(st', effs) := resume k (state m) in
            (mkMachine st' (remove_nth i (pending m)), effs)
          else (mkMachine (state m) (remove_nth i (pending m)), [])
      end
  end.

Fixpoint run (m : Machine) (evs : list Event) : Machine * list Effect :=
  match evs with
  | [] => (m, [])
  | e :: rest =>
      let '(m1, effs1) := step m e in
      let '(m2, effs2) := run m1 rest in
      (m2, effs1 ++ effs2)
  end.

End Handlers.

(** The component as mounted on [node], waiting for nothing. *)
Definition init (node : TreeNodeType) : Machine :=
  mkMachine (TreeNode.init node) [].

End TreeNodeAsync.

(** Every reload answers a request of its own: [unmatched] counts the
    requests sent so far that no reload has answered. *)
Fixpoint reloads_matched (unmatched : nat) (effs : list Effect) : bool :=
  match effs with
  | [] => true
  | Fetch _ :: rest => reloads_matched (S unmatched) rest
  | Reload :: rest =>
      match unmatched with
      | O => false
      | S n => reloads_matched n rest
      end
  end.

Definition is_fulfilment (e : TreeNodeAsync.Event) : bool :=
  match e with
  | TreeNodeAsync.Settle _ ok => ok
  | TreeNodeAsync.Ui _ => false
  end.

(** Saving the data editor twice before the first answer. *)
Definition double_save : list TreeNodeAsync.Event :=
  [TreeNodeAsync.Ui TreeNode.EditDataClick;
   TreeNodeAsync.Ui (TreeNode.EditSubmit true);
   TreeNodeAsync.Ui (TreeNode.EditSubmit true);
   TreeNodeAsync.Settle 0 true;
   TreeNodeAsync.Settle 0 true].

Section AsyncSessions.

Variable node : TreeNodeType.
Variable treeId : Z.

Ltac unfold_starts :=
  unfold TreeNodeAsync.start, TreeNodeAsync.handleNameUpdate_start,
    TreeNodeAsync.handleAddChild_start, TreeNodeAsync.handleUpdateData_start,
    TreeNodeAsync.handleDeleteNode_start, TreeNode.handleNameUpdate,
    TreeNode.handleAddChild, TreeNode.handleUpdateData,
    TreeNode.handleDeleteNode.

Ltac case_ifs :=
  repeat match goal with
    | |- context [if ?b then _ else _] => destruct b eqn:?
    end.

(** A handler of [TreeNode] is its synchronous part followed at once by
    its continuation when the request is fulfilled, and its synchronous
    part alone when the request is rejected. *)
Lemma handle_is_start_then_resume (st : TreeNode.State) (ev : TreeNode.Event) :
  TreeNode.handle node treeId st ev
  = (let '(st1, effs1, k) := TreeNodeAsync.start node treeId st ev in
     match k with
     | Some c =>
         if fulfils ev then
           let '(st2, effs2) := TreeNodeAsync.resume c st1 in
           (st2, effs1 ++ effs2)
         else (st1, effs1)
     | None => (st1, effs1)
     end).
Proof.
  destruct ev; try reflexivity; simpl; unfold_starts; case_ifs;
    try reflexivity; try discriminate.
Qed.

Lemma start_effects (st : TreeNode.State) (ev : TreeNode.Event) :
  match TreeNodeAsync.start node treeId st ev with
  | (_, effs, Some _) => exists r, effs = [Fetch r]
  | (_, effs, None) => effs = []
  end.
Proof.
  destruct ev; simpl; try reflexivity; unfold_starts; case_ifs;
    simpl; eauto.
Qed.

Lemma length_remove_nth {A} (l : list A) :
  forall i a, nth_error l i = Some a ->
              List.length l = S (List.length (TreeNodeAsync.remove_nth i l)).
Proof.
  induction l as [|x rest IH]; intros [|j] a H; simpl in *;
    try discriminate; [reflexivity|].
  f_equal. eapply IH. exact H.
Qed.

Lemma step_reloads_matched (m : TreeNodeAsync.Machine)
  (e : TreeNodeAsync.Event) (n : nat) (tail : list Effect) :
  (List.length (TreeNodeAsync.pending m) <= n)%nat ->
  (forall n',
      (List.length
         (TreeNodeAsync.pending (fst (TreeNodeAsync.step node treeId m e)))
       <= n')%nat ->
      reloads_matched n' tail = true) ->
  reloads_matched n (snd (TreeNodeAsync.step node treeId m e) ++ tail) = true.
Proof.
  intros Hn Htail. destruct e as [ev | i ok]; simpl in *.
  - destruct (TreeNode.enabled node (TreeNodeAsync.state m) ev);
      [|simpl in *; apply Htail; exact Hn].
    pose proof (start_effects (TreeNodeAsync.state m) ev) as Heff.
    destruct (TreeNodeAsync.start node treeId (TreeNodeAsync.state m) ev)
      as [[st' effs] [c|]]; simpl in *.
    + destruct Heff as [r ->]. simpl. apply Htail.
      rewrite length_app. simpl. lia.
    + subst effs. simpl. apply Htail. rewrite length_app. simpl. lia.
  - destruct (nth_error (TreeNodeAsync.pending m) i) as [k|] eqn:Hk;
      [|simpl in *; apply Htail; exact Hn].
    pose proof (length_remove_nth _ _ Hk) as Hlen.
    destruct ok.
    + destruct k; simpl in *; (destruct n as [|n0]; [lia|]);
        apply Htail; lia.
    + simpl in *. apply Htail. lia.
Qed.

Lemma run_reloads_matched (evs : list TreeNodeAsync.Event) :
  forall m n,
    (List.length (TreeNodeAsync.pending m) <= n)%nat ->
    reloads_matched n (snd (TreeNodeAsync.run node treeId m evs)) = true.
Proof.
  induction evs as [|e rest IH]; intros m n Hn; simpl; [reflexivity|].
  pose proof (@step_reloads_matched m e n
                (snd (TreeNodeAsync.run node treeId
                        (fst (TreeNodeAsync.step node treeId m e)) rest))
                Hn) as Hstep.
  destruct (TreeNodeAsync.step node treeId m e) as [m1 effs1]. simpl in *.
  specialize (IH m1).
  destruct (TreeNodeAsync.run node treeId m1 rest) as [m2 effs2]. simpl in *.
  apply Hstep. intros n' Hn'. apply IH. exact Hn'.
Qed.

Lemma step_without_fulfilment (m : TreeNodeAsync.Machine)
  (e : TreeNodeAsync.Event) :
  is_fulfilment e = false ->
  existsb is_reload (snd (TreeNodeAsync.step node treeId m e)) = false.
Proof.
  destruct e as [ev | i ok]; simpl; intros Hok.
  - destruct (TreeNode.enabled node (TreeNodeAsync.state m) ev);
      [|reflexivity].
    pose proof (start_effects (TreeNodeAsync.state m) ev) as Heff.
    destruct (TreeNodeAsync.start node treeId (TreeNodeAsync.state m) ev)
      as [[st' effs] [c|]]; simpl in *.
    + destruct Heff as [r ->]. reflexivity.
    + subst effs. reflexivity.
  - subst ok.
    destruct (nth_error (TreeNodeAsync.pending m) i); reflexivity.
Qed.

(** X6: also when handlers overlap, every [reload()] of a mounted node
    answers a request of its own: at each point of every session the
    reloads so far are no more than the requests sent so far, counting
    from a component that waits for nothing; and a session in which no
    request is fulfilled never reloads. *)
Theorem reload_answers_request
  (st : TreeNode.State) (evs : list TreeNodeAsync.Event) :
  reloads_matched 0
    (snd (TreeNodeAsync.run node treeId (TreeNodeAsync.mkMachine st []) evs))
  = true
  /\ (existsb is_fulfilment evs = false ->
      forall m,
        existsb is_reload (snd (TreeNodeAsync.run node treeId m evs))
        = false).
Proof.
  split.
  - apply run_reloads_matched. simpl. lia.
  - induction evs as [|e rest IH]; intros Hno m; simpl; [reflexivity|].
    simpl in Hno. apply orb_false_iff in Hno. destruct Hno as [He Hrest].
    pose proof (@step_without_fulfilment m e He) as Hstep.
    destruct (TreeNodeAsync.step node treeId m e) as [m1 effs1].
    specialize (IH Hrest m1).
    destruct (TreeNodeAsync.run node treeId m1 rest) as [m2 effs2].
    simpl in *. rewrite existsb_app, Hstep, IH. reflexivity.
Qed.

End AsyncSessions.

(** Two saves of the data editor before the first answer: both requests
    go out, then both reloads, and each reload has its request. *)
Example double_save_trace :
  snd (TreeNodeAsync.run empty_leaf 1 (TreeNodeAsync.init empty_leaf)
         double_save)
  = [Fetch (PatchNode 4 (JObj [("data", JStr (lit ""))]));
     Fetch (PatchNode 4 (JObj [("data", JStr (lit ""))]));
     Reload; Reload].
Proof. reflexivity. Qed.

Section AsyncRequests.

Variable node : TreeNodeType.
Variable treeId : Z.

Ltac unfold_starts :=
  unfold TreeNodeAsync.start, TreeNodeAsync.handleNameUpdate_start,
    TreeNodeAsync.handleAddChild_start, TreeNodeAsync.handleUpdateData_start,
    TreeNodeAsync.handleDeleteNode_start.

Ltac case_ifs :=
  repeat match goal with
    | |- context [if ?b then _ else _] => destruct b eqn:?
    end.




End AsyncRequests.

(** ** The export on a store of objects *)

(** [renderTree] once more, this time on JavaScript objects that live in a
    store: nodes and arrays are referred to by location, reading a
    property looks the object up, an object or array literal allocates, and
    defining a property of an object updates the store. In this form the
    code could change the nodes it is given; the theorems below show that it
    does not. *)
Module Store.

Definition loc : Type := nat.

Inductive HVal : Type :=
| VUndefined
| VNull
| VStr (s : JsString)
| VNum (z : Z)
| VRef (l : loc).

Inductive HObj : Type :=
| HObject (props : list (string * HVal))
| HArray (elems : list HVal).

Definition Heap : Type := list HObj.

(** Running a piece of code on a store: it returns a value and the store it
    leaves, or throws, or needs what is not modelled ([Stuck]: a dangling
    location, a conversion of a string or an object to a number), or the
    recursion budget is used up. *)
Inductive Outcome (A : Type) : Type :=
| Done (a : A) (h : Heap)
| Raise (e : Exn)
| Stuck
| OutOfFuel.

Arguments Done {A} a h.
Arguments Raise {A} e.
Arguments Stuck {A}.
Arguments OutOfFuel {A}.

Definition M (A : Type) : Type := Heap -> Outcome A.

Definition ret {A} (a : A) : M A := fun h => Done a h.

Definition bind {A B} (m : M A) (k : A -> M B) : M B :=
  fun h =>
    match m h with
    | Done a h' => k a h'
    | Raise e => Raise e
    | Stuck => Stuck
    | OutOfFuel => OutOfFuel
    end.

Notation "x <- m ;; k" := (bind m (fun x => k))
  (at level 61, m at next level, right associativity).

Fixpoint mapM {A B} (f : A -> M B) (l : list A) : M (list B) :=
  match l with
  | [] => ret []
  | a :: rest => b <- f a ;; bs <- mapM f rest ;; ret (b :: bs)
  end.

Fixpoint lookup (k : string) (props : list (string * HVal)) : option HVal :=
  match props with
  | [] => None
  | (k', v) :: rest => if String.eqb k k' then Some v else lookup k rest
  end.

(** Defining a property: an existing key keeps its place. *)
Fixpoint define (k : string) (v : HVal) (props : list (string * HVal))
  : list (string * HVal) :=
  match props with
  | [] => [(k, v)]
  | (k', v') :: rest =>
      if String.eqb k k' then (k', v) :: rest
      else (k', v') :: define k v rest
  end.

Fixpoint update (l : loc) (o : HObj) (h : Heap) : Heap :=
  match h, l with
  | [], _ => []
  | _ :: rest, O => o :: rest
  | x :: rest, S l' => x :: update l' o rest
  end.

(** An object or array literal: a new object at the next location. *)
Definition alloc (o : HObj) : M HVal :=
  fun h => Done (VRef (List.length h)) (h ++ [o]).

(** [v.k] *)
Definition get_field (v : HVal) (k : string) : M HVal :=
  fun h =>
    match v with
    | VUndefined =>
        Raise (TypeError
                 ("Cannot read properties of undefined (reading '" ++ k ++ "')"))
    | VNull =>
        Raise (TypeError
                 ("Cannot read properties of null (reading '" ++ k ++ "')"))
    | VStr s =>
        if String.eqb k "length" then Done (VNum (Z.of_nat (List.length s))) h
        else Done VUndefined h
    | VNum _ => Done VUndefined h
    | VRef l =>
        match nth_error h l with
        | Some (HObject props) =>
            Done (match lookup k props with
                  | Some x => x
                  | None => VUndefined
                  end) h
        | Some (HArray elems) =>
            if String.eqb k "length"
            then Done (VNum (Z.of_nat (List.length elems))) h
            else Done VUndefined h
        | None => Stuck
        end
    end.

(** [obj.k = v] on an object of the store. *)
Definition define_prop (target : HVal) (k : string) (v : HVal) : M unit :=
  fun h =>
    match target with
    | VRef l =>
        match nth_error h l with
        | Some (HObject props) =>
            Done tt (update l (HObject (define k v props)) h)
        | _ => Stuck
        end
    | _ => Stuck
    end.

(** [{ ...source }] onto the object under construction: the own properties
    of [source], in order; [null] and [undefined] have none. *)
Definition copy_props (target source : HVal) : M unit :=
  fun h =>
    match source with
    | VUndefined | VNull => Done tt h
    | VRef ls =>
        match nth_error h ls with
        | Some (HObject props) =>
            (fix copy (ps : list (string * HVal)) : M unit :=
               match ps with
               | [] => ret tt
               | (k, v) :: rest => _ <- define_prop target k v ;; copy rest
               end) props h
        | _ => Stuck
        end
    | _ => Stuck
    end.

Definition truthy (v : HVal) : bool :=
  match v with
  | VUndefined | VNull => false
  | VStr s => truthy_string s
  | VNum z => negb (z =? 0)%Z
  | VRef _ => true
  end.

(** [v > 0] *)
Definition gt_zero (v : HVal) : M bool :=
  match v with
  | VNum z => ret (0 <? z)%Z
  | VUndefined | VNull => ret false
  | _ => fun _ => Stuck
  end.

(** [arr.map(f)]: a new array; a value that is not an array has no [map]
    to call. The array is allocated once its elements are known, where
    JavaScript creates it first and fills it as it goes: the array only
    gets another location. *)
Definition array_map (f : HVal -> M HVal) (v : HVal) : M HVal :=
  fun h =>
    match v with
    | VUndefined =>
        Raise (TypeError "Cannot read properties of undefined (reading 'map')")
    | VNull =>
        Raise (TypeError "Cannot read properties of null (reading 'map')")
    | VRef l =>
        match nth_error h l with
        | Some (HArray elems) =>
            (vs <- mapM f elems ;; alloc (HArray vs)) h
        | Some (HObject _) => Raise (TypeError "map is not a function")
        | None => Stuck
        end
    | _ => Raise (TypeError "map is not a function")
    end.

(** [renderTree], statement by statement:
<<
    const renderTree = (node) => {
      return {
        name: node.name,
        ...(node.children && node.children.length > 0
          ? { children: node.children.map((child) => renderTree(child)) }
          : { data: node.data }),
      };
    };
>> *)
Fixpoint renderTree (fuel : nat) (node : HVal) : M HVal :=
  match fuel with
  | O => fun _ => OutOfFuel
  | S fuel' =>
      res <- alloc (HObject []) ;;
      nm <- get_field node "name" ;;
      _ <- define_prop res "name" nm ;;
      ch <- get_field node "children" ;;
      cond <- (if truthy ch then
                 ch' <- get_field node "children" ;;
                 len <- get_field ch' "length" ;;
                 gt_zero len
               else ret false) ;;
      ext <- (if cond : bool then
                ch' <- get_field node "children" ;;
                arr <- array_map (renderTree fuel') ch' ;;
                alloc (HObject [("children", arr)])
              else
                d <- get_field node "data" ;;
                alloc (HObject [("data", d)])) ;;
      _ <- copy_props res ext ;;
      ret res
  end.

(** Two lists related element by element. *)
Fixpoint all2 {A B} (R : A -> B -> Prop) (l1 : list A) (l2 : list B) : Prop :=
  match l1, l2 with
  | [], [] => True
  | a :: l1', b :: l2' => R a b /\ all2 R l1' l2'
  | _, _ => False
  end.

Definition of_nullable (d : option JsString) : HVal :=
  match d with
  | None => VNull
  | Some s => VStr s
  end.

(** The store [h] holds the tree [T] at location [l]: an object with the
    six fields of [TreeNodeType], whose [children] is an array of the
    locations of the children, in order. *)
Fixpoint node_at (h : Heap) (T : TreeNodeType) (l : loc) : Prop :=
  match T with
  | mkNode i t p nm d ch =>
      exists props a ls,
        nth_error h l = Some (HObject props)
        /\ lookup "id" props = Some (VNum i)
        /\ lookup "tree_id" props = Some (VNum t)
        /\ lookup "path" props = Some (VStr p)
        /\ lookup "name" props = Some (VStr nm)
        /\ lookup "data" props = Some (of_nullable d)
        /\ lookup "children" props = Some (VRef a)
        /\ nth_error h a = Some (HArray (map VRef ls))
        /\ all2 (node_at h) ch ls
  end.

(** The value [v] of the store [h] is the JavaScript value [V], and every
    object it is made of lies at a location from [k] on. *)
Fixpoint value_from (k : nat) (h : Heap) (V : JsValue) (v : HVal) : Prop :=
  match V with
  | JNull => v = VNull
  | JStr s => v = VStr s
  | JNum z => v = VNum z
  | JArr Vs =>
      exists l vs,
        v = VRef l /\ (k <= l)%nat
        /\ nth_error h l = Some (HArray vs)
        /\ all2 (value_from k h) Vs vs
  | JObj ps =>
      exists l hps,
        v = VRef l /\ (k <= l)%nat
        /\ nth_error h l = Some (HObject hps)
        /\ all2 (fun kv hkv =>
                   fst kv = fst hkv /\ value_from k h (snd kv) (snd hkv))
              ps hps
  end.

(** The depth of a tree. *)
Fixpoint height (T : TreeNodeType) : nat :=
  match T with
  | mkNode _ _ _ _ _ ch => S (fold_right (fun c n => Nat.max (height c) n) O ch)
  end.

End Store.

(** The scenario tree in a store: three nodes and their arrays. *)
Definition scenario_store : Store.Heap :=
  [Store.HArray [];
   Store.HObject [("id", Store.VNum 2); ("tree_id", Store.VNum 1);
                  ("path", Store.VStr (lit "1.2")); ("name", Store.VStr (lit "a"));
                  ("data", Store.VStr (lit "")); ("children", Store.VRef 0)];
   Store.HArray [];
   Store.HObject [("id", Store.VNum 3); ("tree_id", Store.VNum 1);
                  ("path", Store.VStr (lit "1.3")); ("name", Store.VStr (lit "b"));
                  ("data", Store.VStr (lit "")); ("children", Store.VRef 2)];
   Store.HArray [Store.VRef 1; Store.VRef 3];
   Store.HObject [("id", Store.VNum 1); ("tree_id", Store.VNum 1);
                  ("path", Store.VStr (lit "1")); ("name", Store.VStr (lit "root"));
                  ("data", Store.VNull); ("children", Store.VRef 4)]].

(** Structural induction on values, with the hypothesis on every element
    and on every property value. *)
Section ValueInduction.

Variable P : JsValue -> Prop.
Hypothesis Hnull : P JNull.
Hypothesis Hstr : forall s, P (JStr s).
Hypothesis Hnum : forall z, P (JNum z).
Hypothesis Harr : forall Vs, Forall P Vs -> P (JArr Vs).
Hypothesis Hobj : forall ps, Forall (fun kv => P (snd kv)) ps -> P (JObj ps).

Fixpoint JsValue_forall_ind (V : JsValue) : P V :=
  match V with
  | JNull => Hnull
  | JStr s => Hstr s
  | JNum z => Hnum z
  | JArr Vs =>
      Harr
        ((fix all (l : list JsValue) : Forall P l :=
            match l with
            | [] => Forall_nil P
            | V' :: l' => Forall_cons V' (JsValue_forall_ind V') (all l')
            end) Vs)
  | JObj ps =>
      Hobj
        ((fix all (l : list (string * JsValue))
            : Forall (fun kv => P (snd kv)) l :=
            match l with
            | [] => Forall_nil _
            | (k, V') :: l' =>
                Forall_cons (k, V') (JsValue_forall_ind V') (all l')
            end) ps)
  end.

End ValueInduction.

(** * The export leaves the store as it found it *)

Section StoreFacts.

Import Store.

Lemma all2_Forall2 {A B} (R : A -> B -> Prop) (l1 : list A) :
  forall l2, all2 R l1 l2 <-> Forall2 R l1 l2.
Proof.
  induction l1 as [|a l1 IH]; intros [|b l2]; simpl; split; intros H;
    try contradiction; try (inversion H; fail).
  - constructor.
  - exact I.
  - destruct H as [H1 H2]. constructor; [exact H1 | apply IH, H2].
  - inversion H; subst. split; [assumption | apply IH; assumption].
Qed.

Definition same_key_value (k : nat) (h : Heap)
  (kv : string * JsValue) (hkv : string * HVal) : Prop :=
  fst kv = fst hkv /\ value_from k h (snd kv) (snd hkv).

Lemma node_at_unfold (h : Heap) (i t : Z) (p nm : JsString)
  (d : option JsString) (ch : list TreeNodeType) (l : loc) :
  node_at h (mkNode i t p nm d ch) l
  <-> exists props a ls,
        nth_error h l = Some (HObject props)
        /\ lookup "id" props = Some (VNum i)
        /\ lookup "tree_id" props = Some (VNum t)
        /\ lookup "path" props = Some (VStr p)
        /\ lookup "name" props = Some (VStr nm)
        /\ lookup "data" props = Some (Store.of_nullable d)
        /\ lookup "children" props = Some (VRef a)
        /\ nth_error h a = Some (HArray (map VRef ls))
        /\ Forall2 (node_at h) ch ls.
Proof.
  cbn [node_at]. split.
  - intros (props & a & ls & H1 & H2 & H3 & H4 & H5 & H6 & H7 & H8 & H9).
    exists props, a, ls. repeat (split; [assumption|]).
    apply all2_Forall2, H9.
  - intros (props & a & ls & H1 & H2 & H3 & H4 & H5 & H6 & H7 & H8 & H9).
    exists props, a, ls. repeat (split; [assumption|]).
    apply all2_Forall2, H9.
Qed.

Lemma value_from_arr (k : nat) (h : Heap) (Vs : list JsValue) (v : HVal) :
  value_from k h (JArr Vs) v
  <-> exists l vs,
        v = VRef l /\ (k <= l)%nat
        /\ nth_error h l = Some (HArray vs)
        /\ Forall2 (value_from k h) Vs vs.
Proof.
  cbn [value_from]. split.
  - intros (l & vs & H1 & H2 & H3 & H4). exists l, vs.
    repeat (split; [assumption|]). apply all2_Forall2, H4.
  - intros (l & vs & H1 & H2 & H3 & H4). exists l, vs.
    repeat (split; [assumption|]). apply all2_Forall2, H4.
Qed.

Lemma value_from_obj (k : nat) (h : Heap) (ps : list (string * JsValue))
  (v : HVal) :
  value_from k h (JObj ps) v
  <-> exists l hps,
        v = VRef l /\ (k <= l)%nat
        /\ nth_error h l = Some (HObject hps)
        /\ Forall2 (same_key_value k h) ps hps.
Proof.
  cbn [value_from]. split.
  - intros (l & hps & H1 & H2 & H3 & H4). exists l, hps.
    repeat (split; [assumption|]). apply all2_Forall2, H4.
  - intros (l & hps & H1 & H2 & H3 & H4). exists l, hps.
    repeat (split; [assumption|]). apply (all2_Forall2 _ ps hps), H4.
Qed.

End StoreFacts.

Section StoreRun.

Local Abbreviation export := renderTree (only parsing).

Import Store.

Lemma nth_error_app_some (h d : Heap) (l : loc) (o : HObj) :
  nth_error h l = Some o -> nth_error (h ++ d) l = Some o.
Proof.
  intros H. rewrite nth_error_app1; [exact H|].
  apply nth_error_Some. congruence.
Qed.

Lemma nth_error_app_at (h t : Heap) (o : HObj) :
  nth_error (h ++ o :: t) (List.length h) = Some o.
Proof.
  rewrite nth_error_app2 by lia. rewrite Nat.sub_diag. reflexivity.
Qed.

Lemma update_app_at (h t : Heap) (o o' : HObj) :
  update (List.length h) o' (h ++ o :: t) = h ++ o' :: t.
Proof.
  induction h as [|x h IH]; simpl; [reflexivity|]. rewrite IH. reflexivity.
Qed.

Lemma get_field_object (h : Heap) (l : loc) (props : list (string * HVal))
  (k : string) (v : HVal) :
  nth_error h l = Some (HObject props) ->
  lookup k props = Some v ->
  get_field (VRef l) k h = Done v h.
Proof.
  intros Hl Hk. unfold get_field. rewrite Hl, Hk. reflexivity.
Qed.

Lemma get_field_length (h : Heap) (l : loc) (elems : list HVal) :
  nth_error h l = Some (HArray elems) ->
  get_field (VRef l) "length" h = Done (VNum (Z.of_nat (List.length elems))) h.
Proof.
  intros Hl. unfold get_field. rewrite Hl. reflexivity.
Qed.

(** One call on a node without children: two objects are allocated, the
    result and the [{ data }] that is spread into it. *)
Lemma renderTree_run_leaf (f : nat) (h : Heap) (l a : loc)
  (props : list (string * HVal)) (nm dv : HVal) :
  nth_error h l = Some (HObject props) ->
  lookup "name" props = Some nm ->
  lookup "children" props = Some (VRef a) ->
  lookup "data" props = Some dv ->
  nth_error h a = Some (HArray []) ->
  Store.renderTree (S f) (VRef l) h
  = Done (VRef (List.length h))
      (h ++ [HObject [("name", nm); ("data", dv)]; HObject [("data", dv)]]).
Proof.
  intros Hl Hnm Hch Hd Ha.
  cbn [Store.renderTree]. unfold bind at 1. unfold alloc at 1.
  assert (Hl1 : forall t, nth_error (h ++ t) l = Some (HObject props))
    by (intros t; apply nth_error_app_some; exact Hl).
  assert (Ha1 : forall t, nth_error (h ++ t) a = Some (HArray []))
    by (intros t; apply nth_error_app_some; exact Ha).
  unfold bind at 1. rewrite (@get_field_object _ _ _ _ _ (Hl1 _) Hnm).
  unfold bind at 1. unfold define_prop.
  rewrite nth_error_app_at, update_app_at. cbn [define].
  unfold bind at 1. rewrite (@get_field_object _ _ _ _ _ (Hl1 _) Hch).
  unfold bind at 1. cbn [truthy].
  unfold bind at 1. rewrite (@get_field_object _ _ _ _ _ (Hl1 _) Hch).
  unfold bind at 1. rewrite (@get_field_length _ _ _ (Ha1 _)).
  cbn [List.length Z.of_nat gt_zero ret Z.ltb Z.compare].
  unfold bind at 1. unfold bind at 1.
  rewrite (@get_field_object _ _ _ _ _ (Hl1 _) Hd).
  unfold alloc. unfold bind at 1. unfold copy_props.
  rewrite length_app. cbn [List.length].
  rewrite <- app_assoc. cbn [app].
  replace (List.length h + 1)%nat with (S (List.length h)) by lia.
  assert (Hext : nth_error (h ++ [HObject [("name", nm)]; HObject [("data", dv)]])
                   (S (List.length h)) = Some (HObject [("data", dv)])).
  { rewrite nth_error_app2 by lia.
    replace (S (List.length h) - List.length h)%nat with 1%nat by lia.
    reflexivity. }
  rewrite Hext. unfold bind at 1. unfold define_prop.
  rewrite nth_error_app_at, update_app_at. reflexivity.
Qed.

(** One call on a node with children, given what rendering the children
    does to the store: the result object comes first, then what the
    children allocate, then the array of their values and the
    [{ children }] that is spread into the result. *)
Lemma renderTree_run_internal (f : nat) (h d : Heap) (l a : loc)
  (props : list (string * HVal)) (nm e : HVal) (es rs : list HVal) :
  nth_error h l = Some (HObject props) ->
  lookup "name" props = Some nm ->
  lookup "children" props = Some (VRef a) ->
  nth_error h a = Some (HArray (e :: es)) ->
  mapM (Store.renderTree f) (e :: es) (h ++ [HObject [("name", nm)]])
  = Done rs ((h ++ [HObject [("name", nm)]]) ++ d) ->
  Store.renderTree (S f) (VRef l) h
  = Done (VRef (List.length h))
      (h ++ HObject [("name", nm);
                     ("children", VRef (S (List.length h + List.length d)))]
         :: d
         ++ [HArray rs;
             HObject [("children",
                       VRef (S (List.length h + List.length d)))]]).
Proof.
  intros Hl Hnm Hch Ha Hmap.
  cbn [Store.renderTree]. unfold bind at 1. unfold alloc at 1.
  assert (Hl1 : forall t, nth_error (h ++ t) l = Some (HObject props))
    by (intros t; apply nth_error_app_some; exact Hl).
  assert (Ha1 : forall t, nth_error (h ++ t) a = Some (HArray (e :: es)))
    by (intros t; apply nth_error_app_some; exact Ha).
  unfold bind at 1. rewrite (@get_field_object _ _ _ _ _ (Hl1 _) Hnm).
  unfold bind at 1. unfold define_prop at 1.
  rewrite nth_error_app_at, update_app_at. cbn [define].
  unfold bind at 1. rewrite (@get_field_object _ _ _ _ _ (Hl1 _) Hch).
  unfold bind at 1. cbn [truthy].
  unfold bind at 1. rewrite (@get_field_object _ _ _ _ _ (Hl1 _) Hch).
  unfold bind at 1. rewrite (@get_field_length _ _ _ (Ha1 _)).
  assert (Hpos : (0 <? Z.of_nat (List.length (e :: es)))%Z = true)
    by (apply Z.ltb_lt; simpl List.length; lia).
  unfold gt_zero, ret at 1. rewrite Hpos.
  unfold bind at 1. unfold bind at 1.
  rewrite (@get_field_object _ _ _ _ _ (Hl1 _) Hch).
  unfold bind at 1. unfold array_map. rewrite (Ha1 _).
  unfold bind at 1. rewrite Hmap.
  unfold alloc. unfold bind at 1. unfold copy_props.
  repeat rewrite <- app_assoc. cbn [app].
  repeat rewrite length_app. cbn [List.length].
  replace (List.length h + S (List.length d))%nat
    with (S (List.length h + List.length d)) by lia.
  replace (List.length h + S (List.length (d ++ [HArray rs])))%nat
    with (S (S (List.length h + List.length d)))
    by (rewrite length_app; simpl; lia).
  assert (Hext : nth_error
                   (h ++ HObject [("name", nm)]
                      :: d
                      ++ [HArray rs;
                          HObject
                            [("children",
                              VRef (S (List.length h + List.length d)))]])
                   (S (S (List.length h + List.length d)))
                 = Some (HObject
                           [("children",
                             VRef (S (List.length h + List.length d)))])).
  { rewrite nth_error_app2 by lia.
    replace (S (S (List.length h + List.length d)) - List.length h)%nat
      with (S (List.length d + 1)) by lia.
    cbn [nth_error]. rewrite nth_error_app2 by lia.
    replace (List.length d + 1 - List.length d)%nat with 1%nat by lia.
    reflexivity. }
  rewrite Hext. unfold bind at 1. unfold define_prop.
  rewrite nth_error_app_at, update_app_at. reflexivity.
Qed.

(** The store [h'] holds, from location [k] on, what [h] holds there. *)
Definition agree_from (k : nat) (h h' : Heap) : Prop :=
  forall l o, (k <= l)%nat -> nth_error h l = Some o -> nth_error h' l = Some o.

Lemma Forall2_transfer {A B} (R R' : A -> B -> Prop) (l1 : list A) :
  Forall (fun a => forall b, R a b -> R' a b) l1 ->
  forall l2, Forall2 R l1 l2 -> Forall2 R' l1 l2.
Proof.
  induction 1 as [|a l1 Ha _ IH]; intros l2 H2; inversion H2; subst;
    constructor; auto.
Qed.

Lemma node_at_app (T : TreeNodeType) :
  forall h d l, node_at h T l -> node_at (h ++ d) T l.
Proof.
  induction T as [i t p nm dt ch IH] using TreeNodeType_forall_ind.
  intros h d l H. apply node_at_unfold in H. apply node_at_unfold.
  destruct H as (props & a & ls & H1 & H2 & H3 & H4 & H5 & H6 & H7 & H8 & H9).
  exists props, a, ls.
  split; [apply nth_error_app_some; exact H1|].
  repeat (split; [assumption|]).
  split; [apply nth_error_app_some; exact H8|].
  revert H9. apply Forall2_transfer.
  eapply Forall_impl; [|exact IH]. intros c Hc b. apply Hc.
Qed.

Lemma value_from_mono (V : JsValue) :
  forall k k' h h' v,
    (k' <= k)%nat -> agree_from k h h' ->
    value_from k h V v -> value_from k' h' V v.
Proof.
  induction V as [| s | z | Vs IH | ps IH] using JsValue_forall_ind;
    intros k k' h h' v Hk Hag H; try exact H.
  - apply value_from_arr in H. apply value_from_arr.
    destruct H as (l & vs & -> & Hl & Hnth & Hall).
    exists l, vs. split; [reflexivity|]. split; [lia|].
    split; [apply (Hag l _ Hl Hnth)|].
    revert Hall. apply Forall2_transfer.
    eapply Forall_impl; [|exact IH]. intros V HV b. apply HV; assumption.
  - apply value_from_obj in H. apply value_from_obj.
    destruct H as (l & hps & -> & Hl & Hnth & Hall).
    exists l, hps. split; [reflexivity|]. split; [lia|].
    split; [apply (Hag l _ Hl Hnth)|].
    revert Hall. apply Forall2_transfer.
    eapply Forall_impl; [|exact IH]. intros kv HV b [Hkey Hv].
    split; [exact Hkey|]. eapply HV; eassumption.
Qed.

Lemma agree_from_app (k : nat) (h d : Heap) : agree_from k h (h ++ d).
Proof.
  intros l o _ H. apply nth_error_app_some. exact H.
Qed.

Lemma agree_from_result (h d t : Heap) (o o' : HObj) :
  agree_from (S (List.length h)) ((h ++ [o]) ++ d) (h ++ o' :: d ++ t).
Proof.
  intros l x Hl H. rewrite <- app_assoc in H. cbn [app] in H.
  rewrite nth_error_app2 in H by lia. rewrite nth_error_app2 by lia.
  destruct (l - List.length h)%nat as [|j] eqn:Hj; [lia|].
  cbn [nth_error] in *. apply nth_error_app_some. exact H.
Qed.

(** What a call of the export on a represented tree does. *)
Definition render_ok (T : TreeNodeType) : Prop :=
  forall f h l,
    (height T <= f)%nat ->
    node_at h T l ->
    exists r d,
      Store.renderTree f (VRef l) h = Done r (h ++ d)
      /\ value_from (List.length h) (h ++ d) (export T) r.

Lemma mapM_children (f : nat) (ch : list TreeNodeType) :
  Forall render_ok ch ->
  Forall (fun c => (height c <= f)%nat) ch ->
  forall ls h,
    Forall2 (node_at h) ch ls ->
    exists rs d,
      mapM (Store.renderTree f) (map VRef ls) h = Done rs (h ++ d)
      /\ Forall2 (value_from (List.length h) (h ++ d)) (map export ch) rs.
Proof.
  induction 1 as [|c cs Hc _ IH]; intros Hh ls h Hrep;
    inversion Hrep as [|c' l' cs' ls' Hcl Hrest]; subst.
  - exists [], []. rewrite app_nil_r. split; [reflexivity | constructor].
  - inversion Hh as [|c' cs' Hhc Hhcs]; subst.
    destruct (Hc f h l' Hhc Hcl) as (r & d1 & Hrun & Hval).
    assert (Hrest' : Forall2 (node_at (h ++ d1)) cs ls').
    { revert Hrest. apply Forall2_transfer.
      apply Forall_forall. intros x _ b. apply node_at_app. }
    destruct (IH Hhcs ls' (h ++ d1) Hrest') as (rs & d2 & Hruns & Hvals).
    exists (r :: rs), (d1 ++ d2).
    cbn [map mapM]. unfold bind at 1. rewrite Hrun.
    unfold bind at 1. rewrite Hruns. rewrite <- app_assoc.
    split; [reflexivity|]. cbn [map]. constructor.
    + eapply value_from_mono; [| |exact Hval]; [lia|].
      rewrite app_assoc. apply agree_from_app.
    + rewrite app_assoc. revert Hvals. apply Forall2_transfer.
      apply Forall_forall. intros V _ b.
      apply value_from_mono; [rewrite length_app; lia|].
      intros l o _ H. exact H.
Qed.

Lemma of_nullable_value (k : nat) (h : Heap) (d : option JsString) :
  value_from k h (Js.of_nullable d) (Store.of_nullable d).
Proof. destruct d; reflexivity. Qed.

Lemma height_children (i t : Z) (p nm : JsString) (d : option JsString)
  (ch : list TreeNodeType) (f : nat) :
  (height (mkNode i t p nm d ch) <= S f)%nat ->
  Forall (fun c => (height c <= f)%nat) ch.
Proof.
  cbn [height]. intros H. apply le_S_n in H. revert H.
  induction ch as [|c cs IH]; intros H; constructor; simpl in H; [lia|].
  apply IH. lia.
Qed.

(** Every call of the export on a tree held in the store returns, adds
    objects at the end of the store and changes none that was there, and
    its result is the value of [renderTree], made of new objects only. *)
Lemma renderTree_on_store (T : TreeNodeType) : render_ok T.
Proof.
  induction T as [i t p nm dt ch IH] using TreeNodeType_forall_ind.
  intros f h l Hf Hrep.
  destruct f as [|f]; [cbn [height] in Hf; lia|].
  pose proof (@height_children i t p nm dt ch f Hf) as Hch.
  apply node_at_unfold in Hrep.
  destruct Hrep
    as (props & a & ls & H1 & H2 & H3 & H4 & H5 & H6 & H7 & H8 & H9).
  destruct ch as [|c cs].
  - inversion H9; subst. cbn [map] in H8.
    rewrite (@renderTree_run_leaf f h l a props (VStr nm)
               (Store.of_nullable dt) H1 H5 H7 H6 H8).
    eexists _, _. split; [reflexivity|].
    rewrite renderTree_leaf by reflexivity. cbn [Tree.name data].
    apply value_from_obj. eexists _, _.
    split; [reflexivity|]. split; [lia|].
    split; [apply nth_error_app_at|].
    repeat constructor. apply of_nullable_value.
  - inversion H9 as [|c' l' cs' ls' Hc Hcs]; subst.
    assert (Hrep' : Forall2 (node_at (h ++ [HObject [("name", VStr nm)]]))
                      (c :: cs) (l' :: ls')).
    { revert H9. apply Forall2_transfer.
      apply Forall_forall. intros x _ b. apply node_at_app. }
    destruct (@mapM_children f (c :: cs) IH Hch (l' :: ls') _ Hrep')
      as (rs & d & Hmap & Hvals).
    cbn [map] in H8, Hmap.
    rewrite (@renderTree_run_internal f h d l a props (VStr nm)
               (VRef l') (map VRef ls') rs H1 H5 H7 H8 Hmap).
    eexists _, _. split; [reflexivity|].
    rewrite renderTree_internal by (simpl; congruence).
    cbn [Tree.name children].
    apply value_from_obj. eexists _, _.
    split; [reflexivity|]. split; [lia|].
    split; [apply nth_error_app_at|].
    constructor; [split; reflexivity|].
    constructor; [|constructor]. split; [reflexivity|]. cbn [snd].
    apply value_from_arr. eexists _, _.
    split; [reflexivity|]. split; [lia|]. split.
    + rewrite nth_error_app2 by lia.
      replace (S (List.length h + List.length d) - List.length h)%nat
        with (S (List.length d)) by lia.
      cbn [nth_error]. rewrite nth_error_app2 by lia.
      rewrite Nat.sub_diag. reflexivity.
    + revert Hvals. apply Forall2_transfer.
      apply Forall_forall. intros V _ b.
      apply value_from_mono.
      * rewrite length_app. simpl. lia.
      * rewrite length_app. cbn [List.length].
        replace (List.length h + 1)%nat with (S (List.length h)) by lia.
        apply agree_from_result.
Qed.

Lemma value_from_of_nullable (k : nat) (h : Heap) (d : option JsString)
  (v : HVal) :
  value_from k h (Js.of_nullable d) v -> v = Store.of_nullable d.
Proof. destruct d; simpl; auto. Qed.

(** The object that stands for the value of [renderTree]: a name and the
    stored data, or a name and an array with the value of each child at
    the index of that child. *)
Definition result_shape (h : Heap) (k : nat) (T : TreeNodeType) (r : HVal)
  : Prop :=
  match children T with
  | [] =>
      exists lr,
        r = VRef lr
        /\ nth_error h lr
           = Some (HObject [("name", VStr (Tree.name T));
                            ("data", Store.of_nullable (data T))])
  | _ :: _ =>
      exists lr a vs,
        r = VRef lr
        /\ nth_error h lr
           = Some (HObject [("name", VStr (Tree.name T));
                            ("children", VRef a)])
        /\ nth_error h a = Some (HArray vs)
        /\ Forall2 (value_from k h) (map export (children T)) vs
  end.

Lemma value_from_result_shape (k : nat) (h : Heap) (T : TreeNodeType)
  (r : HVal) :
  value_from k h (export T) r -> result_shape h k T r.
Proof.
  unfold result_shape. destruct (children T) as [|c cs] eqn:Ech; intros H.
  - rewrite renderTree_leaf in H by exact Ech.
    apply value_from_obj in H.
    destruct H as (lr & hps & -> & _ & Hnth & Hall).
    inversion Hall as [|kv1 [k1 v1] ps1 hps1 [Hk1 Hv1] Hall1]; subst.
    inversion Hall1 as [|kv2 [k2 v2] ps2 hps2 [Hk2 Hv2] Hall2]; subst.
    inversion Hall2; subst. cbn [fst snd] in *. subst.
    cbn [value_from] in Hv1. subst v1.
    apply value_from_of_nullable in Hv2. subst.
    exists lr. split; [reflexivity | exact Hnth].
  - rewrite renderTree_internal in H by congruence. rewrite Ech in H.
    apply value_from_obj in H.
    destruct H as (lr & hps & -> & _ & Hnth & Hall).
    inversion Hall as [|kv1 [k1 v1] ps1 hps1 [Hk1 Hv1] Hall1]; subst.
    inversion Hall1 as [|kv2 [k2 v2] ps2 hps2 [Hk2 Hv2] Hall2]; subst.
    inversion Hall2; subst. cbn [fst snd] in *. subst.
    cbn [value_from] in Hv1. subst v1.
    apply value_from_arr in Hv2.
    destruct Hv2 as (a & vs & -> & _ & Ha & Hvs).
    exists lr, a, vs. repeat (split; [first [reflexivity | assumption]|]).
    exact Hvs.
Qed.

End StoreRun.

(** Reading a property of [null] throws before anything else happens. *)
Lemma renderTree_null_on_store (f : nat) (h : Store.Heap) :
  Store.renderTree (S f) Store.VNull h
  = Store.Raise (TypeError "Cannot read properties of null (reading 'name')").
Proof. reflexivity. Qed.

(** C8: on a store of objects, where the code could write to the nodes it
    is given, the export of a tree held in the store returns, allocates new
    objects at the end of the store and leaves every object that was there
    as it was (no side effect on the tree or on anything else); its result
    is made of new objects only and is the value of [renderTree]: the name
    with the stored data for a node without children, the name with an
    array that holds, at each index, the export of the stored child of that
    index otherwise. Two applications give equal values: on two stores that
    hold equal trees, and on the same node one after the other. *)
Theorem renderTree_pure_on_store
  (T : TreeNodeType) (h1 h2 : Store.Heap) (l1 l2 : Store.loc) (f1 f2 : nat) :
  Store.node_at h1 T l1 ->
  Store.node_at h2 T l2 ->
  (Store.height T <= f1)%nat ->
  (Store.height T <= f2)%nat ->
  exists r1 d1 r2 d2 r3 d3,
    Store.renderTree f1 (Store.VRef l1) h1 = Store.Done r1 (h1 ++ d1)
    /\ Store.value_from (List.length h1) (h1 ++ d1) (renderTree T) r1
    /\ result_shape (h1 ++ d1) (List.length h1) T r1
    /\ Store.node_at (h1 ++ d1) T l1
    /\ Store.renderTree f2 (Store.VRef l2) h2 = Store.Done r2 (h2 ++ d2)
    /\ Store.value_from (List.length h2) (h2 ++ d2) (renderTree T) r2
    /\ Store.renderTree f2 (Store.VRef l1) (h1 ++ d1)
       = Store.Done r3 ((h1 ++ d1) ++ d3)
    /\ Store.value_from (List.length (h1 ++ d1)) ((h1 ++ d1) ++ d3)
         (renderTree T) r3.
Proof.
  intros Hrep1 Hrep2 Hf1 Hf2.
  destruct (@renderTree_on_store T f1 h1 l1 Hf1 Hrep1) as (r1 & d1 & Hrun1 & Hv1).
  destruct (@renderTree_on_store T f2 h2 l2 Hf2 Hrep2) as (r2 & d2 & Hrun2 & Hv2).
  pose proof (@node_at_app T h1 d1 l1 Hrep1) as Hrep3.
  destruct (@renderTree_on_store T f2 (h1 ++ d1) l1 Hf2 Hrep3)
    as (r3 & d3 & Hrun3 & Hv3).
  exists r1, d1, r2, d2, r3, d3.
  repeat (split; [assumption|]).
  split; [apply value_from_result_shape; exact Hv1|].
  repeat (split; [assumption|]). exact Hv3.
Qed.

Lemma renderTree_pure_on_store_witness :
  Store.node_at scenario_store scenario_root 5
  /\ (Store.height scenario_root <= 2)%nat
  /\ exists r1 d1 r2 d2 r3 d3,
       Store.renderTree 2 (Store.VRef 5) scenario_store
       = Store.Done r1 (scenario_store ++ d1)
       /\ Store.value_from (List.length scenario_store) (scenario_store ++ d1)
            (renderTree scenario_root) r1
       /\ result_shape (scenario_store ++ d1) (List.length scenario_store)
            scenario_root r1
       /\ Store.node_at (scenario_store ++ d1) scenario_root 5
       /\ Store.renderTree 2 (Store.VRef 5) scenario_store
          = Store.Done r2 (scenario_store ++ d2)
       /\ Store.value_from (List.length scenario_store) (scenario_store ++ d2)
            (renderTree scenario_root) r2
       /\ Store.renderTree 2 (Store.VRef 5) (scenario_store ++ d1)
          = Store.Done r3 ((scenario_store ++ d1) ++ d3)
       /\ Store.value_from (List.length (scenario_store ++ d1))
            ((scenario_store ++ d1) ++ d3) (renderTree scenario_root) r3.
Proof.
  assert (Hrep : Store.node_at scenario_store scenario_root 5).
  { cbn. eexists _, 4%nat, [1%nat; 3%nat]. repeat (split; [reflexivity|]).
    split; [eexists _, 0%nat, []; repeat (split; [reflexivity|]); exact I|].
    split; [eexists _, 2%nat, []; repeat (split; [reflexivity|]); exact I|].
    exact I. }
  assert (Hh : (Store.height scenario_root <= 2)%nat) by (cbn; lia).
  split; [exact Hrep|]. split; [exact Hh|].
  exact (@renderTree_pure_on_store scenario_root scenario_store scenario_store
           5 5 2 2 Hrep Hrep Hh Hh).
Defined.
